(** * X11 bitmap font importer: classification, grouping and build logic

    A shallow embedding of [src/fonts/x11-importer.py].  Text is modelled
    as [string] (code points below 256, which covers the ASCII BDF format),
    Python integers as [Z], dictionaries whose iteration order matters as
    association lists, the [defaultdict] groups as [gmap], the [seen_px]
    set as [gset], and exceptions as an explicit error result. *)

From stdpp Require Import gmap strings list sorting.
From Stdlib Require Import ZArith Lia Ascii.

Local Open Scope Z_scope.

(** ** Python string primitives *)

Module PyStr.

(** [s.startswith(p)] *)
Fixpoint startswith (s p : string) {struct p} : bool :=
  match p with
  | EmptyString => true
  | String c p' =>
      match s with
      | EmptyString => false
      | String d s' => if Ascii.eqb c d then startswith s' p' else false
      end
  end.

(** [sub in s] *)
Fixpoint contains (sub s : string) : bool :=
  startswith s sub ||
  match s with
  | EmptyString => false
  | String _ s' => contains sub s'
  end.

(** [s.replace(old, new)] for a non-empty [old]: occurrences are replaced
    from left to right without overlap.  [skip] counts the characters of
    a matched occurrence that are still to be passed over. *)
Fixpoint replace_from (old new : string) (skip : nat) (s : string) : string :=
  match s with
  | EmptyString => EmptyString
  | String c s' =>
      match skip with
      | S k => replace_from old new k s'
      | O =>
          if startswith s old
          then String.append new (replace_from old new (String.length old - 1)%nat s')
          else String c (replace_from old new O s')
      end
  end.

Definition replace (s old new : string) : string := replace_from old new O s.

End PyStr.

(** ** Stable sorting: [sorted(l, key=..., reverse=...)] and [l.sort(key=...)]

    Python's sort is stable, also with [reverse=True]: entries with equal
    keys keep their original relative order.  A stable sort is determined
    by that property, so it is modelled by insertion at the first position
    where the new entry may stand. *)

Section StableSort.
Context {A : Type} (before : A → A → bool).

Fixpoint insert_sorted (x : A) (l : list A) : list A :=
  match l with
  | [] => [x]
  | y :: t => if before x y then x :: y :: t else y :: insert_sorted x t
  end.

Fixpoint stable_sort (l : list A) : list A :=
  match l with
  | [] => []
  | x :: t => insert_sorted x (stable_sort t)
  end.
End StableSort.

(** Ordering by an integer key: [x] may stand before [y] when its key is
    not larger (not smaller, with [reverse=True]). *)
Definition goes_before {A} (key : A → Z) (reverse : bool) (x y : A) : bool :=
  if reverse then key y <=? key x else key x <=? key y.

Definition py_sorted {A} (key : A → Z) (reverse : bool) (l : list A) : list A :=
  stable_sort (goes_before key reverse) l.

(** ** Static tables *)

(** A dict literal, in insertion order. *)
Definition dict (V : Type) : Type := list (string * V).

Definition dict_keys {V} (d : dict V) : list string := d.*1.

Fixpoint dict_get {V} (d : dict V) (k : string) : option V :=
  match d with
  | [] => None
  | (k', v) :: t => if String.eqb k' k then Some v else dict_get t k
  end.

Definition PROPORTIONAL : dict (string * string) :=
  [ ("helvR",  ("X11Helv", "Regular"));
    ("helvB",  ("X11Helv", "Bold"));
    ("helvO",  ("X11Helv", "Oblique"));
    ("helvBO", ("X11Helv", "BoldOblique"));
    ("luRS",   ("X11LuSans", "Regular"));
    ("luBS",   ("X11LuSans", "Bold"));
    ("luIS",   ("X11LuSans", "Oblique"));
    ("luBIS",  ("X11LuSans", "BoldOblique"));
    ("lubR",   ("X11LuSans", "Regular"));
    ("lubB",   ("X11LuSans", "Bold"));
    ("lubI",   ("X11LuSans", "Oblique"));
    ("lubBI",  ("X11LuSans", "BoldOblique"));
    ("lutRS",  ("X11LuType", "Regular"));
    ("lutBS",  ("X11LuType", "Bold"));
    ("termB",  ("X11Term", "Bold"));
    ("term",   ("X11Term", "Regular")) ].

Definition MISC_SKIP_PREFIXES : list string :=
  [ "cl"; "cu"; "olgl"; "ol"; "nil"; "micro"; "dec";
    "cursor"; "arabic"; "hangl"; "jiskan"; "gb"; "k14";
    "12x13ja"; "18x18ja"; "18x18ko"; "12x24rk"; "8x16rk" ].

Definition MISC_MAP : dict (string * string * Z) :=
  [ ("4x6",   ("X11Misc5x", "Regular", 6));
    ("5x7",   ("X11Misc5x", "Regular", 7));
    ("5x8",   ("X11Misc5x", "Regular", 8));
    ("6x9",   ("X11Misc6x", "Regular", 9));
    ("6x10",  ("X11Misc6x", "Regular", 10));
    ("6x12",  ("X11Misc6x", "Regular", 12));
    ("6x13",  ("X11Misc6x", "Regular", 13));
    ("6x13B", ("X11Misc6x", "Bold", 13));
    ("6x13O", ("X11Misc6x", "Oblique", 13));
    ("7x13",  ("X11Misc7x", "Regular", 13));
    ("7x13B", ("X11Misc7x", "Bold", 13));
    ("7x13O", ("X11Misc7x", "Oblique", 13));
    ("7x14",  ("X11Misc7x", "Regular", 14));
    ("7x14B", ("X11Misc7x", "Bold", 14));
    ("8x13",  ("X11Misc8x", "Regular", 13));
    ("8x13B", ("X11Misc8x", "Bold", 13));
    ("8x13O", ("X11Misc8x", "Oblique", 13));
    ("8x16",  ("X11Misc8x", "Regular", 16));
    ("9x15",  ("X11Misc9x", "Regular", 15));
    ("9x15B", ("X11Misc9x", "Bold", 15));
    ("9x18",  ("X11Misc9x", "Regular", 18));
    ("9x18B", ("X11Misc9x", "Bold", 18));
    ("10x20", ("X11Misc10x", "Regular", 20));
    ("12x24", ("X11Misc12x", "Regular", 24)) ].

(** The styles the two tables name. *)
Definition STYLES : list string := ["Regular"; "Bold"; "Oblique"; "BoldOblique"].

(** ** Classifier *)

Definition len (s : string) : Z := Z.of_nat (String.length s).

(** The [for prefix in ...] loop of [classify_proportional]: the mapped
    value of the first prefix the basename starts with, [None] when the
    loop runs to its end. *)
Fixpoint classify_loop (prefixes : list string) (basename : string)
  : option (string * string) :=
  match prefixes with
  | [] => None
  | prefix :: rest =>
      if PyStr.startswith basename prefix
      then dict_get PROPORTIONAL prefix
      else classify_loop rest basename
  end.

(** The keys of the table, longest first. *)
Definition sorted_prefixes : list string :=
  py_sorted len true (dict_keys PROPORTIONAL).

Definition classify_proportional (basename : string) : option (string * string) :=
  classify_loop sorted_prefixes basename.

(** ** Exceptions *)

Inductive exn : Type :=
  | IndexError
  | ValueError
  | ZeroDivisionError
  | OSError
  | HostError (msg : string).

Inductive result (A : Type) : Type :=
  | Ok (a : A)
  | Raise (e : exn).
Arguments Ok {A} a.
Arguments Raise {A} e.

#[global] Instance result_ret : MRet result := λ A a, Ok a.
#[global] Instance result_bind : MBind result := λ A B f m,
  match m with
  | Ok a => f a
  | Raise e => Raise e
  end.

(** ** Pixel-size resolver *)

(** Characters [str.split()] and [int()] treat as white space (below 256). *)
Definition is_space (c : Ascii.ascii) : bool :=
  let n := Ascii.nat_of_ascii c in
  ((9 <=? n) && (n <=? 13) || (28 <=? n) && (n <=? 32)
   || (n =? 133) || (n =? 160))%nat.

Definition newline : Ascii.ascii := "010"%char.
Definition carriage_return : Ascii.ascii := "013"%char.

(** Iterating over a file opened in text mode: the text cut after each
    line end, where ["\n"], ["\r"] and ["\r\n"] all end a line and are
    handed over as ["\n"]. *)
Fixpoint readlines (s : string) : list string :=
  match s with
  | EmptyString => []
  | String c s' =>
      if Ascii.eqb c newline then String newline EmptyString :: readlines s'
      else if Ascii.eqb c carriage_return then
        match s' with
        | String d s'' =>
            if Ascii.eqb d newline
            then String newline EmptyString :: readlines s''
            else String newline EmptyString :: readlines s'
        | EmptyString => [String newline EmptyString]
        end
      else
        match readlines s' with
        | [] => [String c EmptyString]
        | l :: ls => String c l :: ls
        end
  end.

(** [s.split()]: the maximal runs of characters that are not white space. *)
Fixpoint split (s : string) : list string :=
  match s with
  | EmptyString => []
  | String c s' =>
      if is_space c then split s'
      else
        match s' with
        | EmptyString => [String c EmptyString]
        | String d _ =>
            if is_space d then String c EmptyString :: split s'
            else
              match split s' with
              | w :: ws => String c w :: ws
              | [] => [String c EmptyString]
              end
        end
  end.

Definition digit_val (c : Ascii.ascii) : option Z :=
  let n := Ascii.nat_of_ascii c in
  if ((48 <=? n) && (n <=? 57))%nat then Some (Z.of_nat n - 48) else None.

(** Decimal digits, where single underscores may stand between digits. *)
Fixpoint parse_digits (acc : Z) (after_digit : bool) (s : string) : option Z :=
  match s with
  | EmptyString => if after_digit then Some acc else None
  | String c s' =>
      match digit_val c with
      | Some d => parse_digits (10 * acc + d) true s'
      | None =>
          if Ascii.eqb c "_"%char && after_digit
          then parse_digits acc false s'
          else None
      end
  end.

(** [int(tok)] on a token without white space: an optional sign and
    decimal digits; anything else is a [ValueError].  (The cap that
    recent interpreters put on the number of digits is a setting of the
    interpreter and is left out.) *)
Definition py_int (tok : string) : result Z :=
  match tok with
  | String c r =>
      if Ascii.eqb c "-"%char then
        match parse_digits 0 false r with
        | Some n => Ok (- n)
        | None => Raise ValueError
        end
      else if Ascii.eqb c "+"%char then
        match parse_digits 0 false r with
        | Some n => Ok n
        | None => Raise ValueError
        end
      else
        match parse_digits 0 false tok with
        | Some n => Ok n
        | None => Raise ValueError
        end
  | EmptyString => Raise ValueError
  end.

(** [int(line.split()[1])] *)
Definition parse_pixel_size_line (line : string) : result Z :=
  match split line !! 1%nat with
  | Some tok => py_int tok
  | None => Raise IndexError
  end.

(** The loop of [get_pixel_size] over the lines of the file. *)
Fixpoint scan_pixel_size (lines : list string) : result Z :=
  match lines with
  | [] => Ok 0
  | line :: rest =>
      if PyStr.startswith line "PIXEL_SIZE " then parse_pixel_size_line line
      else if PyStr.startswith line "STARTCHAR" then Ok 0
      else scan_pixel_size rest
  end.

(** [get_pixel_size(bdf_path)], given what is stored at [bdf_path]:
    [None] when there is no such file ([open] fails). *)
Definition get_pixel_size (bdf : option string) : result Z :=
  match bdf with
  | None => Raise OSError
  | Some text => scan_pixel_size (readlines text)
  end.

(** A line of the header that neither declares the pixel size nor starts
    the glyph data. *)
Definition plain_line (line : string) : Prop :=
  PyStr.startswith line "PIXEL_SIZE " = false
  ∧ PyStr.startswith line "STARTCHAR" = false.

(** ** Collectors *)

(** One [*.pcf.gz] file of a font directory: its file name, and the text
    found at the BDF path after the (unchecked) conversion commands have
    run, [None] when they left no file there. *)
Record pcf_file : Type := PcfFile {
  pcf_name : string;
  bdf_text : option string
}.

(** A [(pixel_size, bdf_path)] pair. *)
Abbreviation entry := (Z * string)%type.

(** The [defaultdict(list)] keyed by [(family, style)]. *)
Abbreviation groups := (gmap (string * string) (list entry)).

(** [groups[key].append(e)] *)
Definition append_entry (g : groups) (key : string * string) (e : entry) : groups :=
  <[key := default [] (g !! key) ++ [e]]> g.

(** [os.path.join(dir, name)] for a relative [name]. *)
Definition path_join (dir name : string) : string :=
  String.append dir (String.append "/" name).

Definition basename_of (f : pcf_file) : string :=
  PyStr.replace (pcf_name f) ".pcf.gz" "".

Definition has_charset_marker (basename : string) : bool :=
  PyStr.contains "-ISO8859" basename
  || PyStr.contains "-KOI8" basename
  || PyStr.contains "-JISX" basename.

(** The body of the inner loop of [collect_proportional_fonts], for the
    directory of resolution [dpi] (["75"] or ["100"]); the files come in
    the order in which the loop visits them. *)
Fixpoint collect_proportional_dir (tmp dpi : string) (files : list pcf_file)
    (g : groups) : result groups :=
  match files with
  | [] => Ok g
  | f :: rest =>
      let basename := basename_of f in
      if has_charset_marker basename then collect_proportional_dir tmp dpi rest g
      else
        match classify_proportional basename with
        | None => collect_proportional_dir tmp dpi rest g
        | Some (family, style) =>
            let bdf_path :=
              path_join tmp (String.append basename
                              (String.append "_" (String.append dpi "dpi.bdf"))) in
            px ← get_pixel_size (bdf_text f);
            if 0 <? px
            then collect_proportional_dir tmp dpi rest
                   (append_entry g (family, style) (px, bdf_path))
            else collect_proportional_dir tmp dpi rest g
        end
  end.

(** A font directory: [None] when it does not exist. *)
Definition font_dir : Type := option (list pcf_file).

Definition collect_proportional_fonts (tmp : string) (dir75 dir100 : font_dir)
  : result groups :=
  g ← match dir75 with
      | None => Ok ∅
      | Some files => collect_proportional_dir tmp "75" files ∅
      end;
  match dir100 with
  | None => Ok g
  | Some files => collect_proportional_dir tmp "100" files g
  end.

Fixpoint collect_misc_dir (tmp : string) (files : list pcf_file) (g : groups)
  : result groups :=
  match files with
  | [] => Ok g
  | f :: rest =>
      let basename := basename_of f in
      if has_charset_marker basename then collect_misc_dir tmp rest g
      else if existsb (PyStr.startswith basename) MISC_SKIP_PREFIXES
      then collect_misc_dir tmp rest g
      else
        match dict_get MISC_MAP basename with
        | None => collect_misc_dir tmp rest g
        | Some (family, style, px) =>
            let bdf_path :=
              path_join tmp (String.append "misc_" (String.append basename ".bdf")) in
            actual_px ← get_pixel_size (bdf_text f);
            let px := if 0 <? actual_px then actual_px else px in
            collect_misc_dir tmp rest (append_entry g (family, style) (px, bdf_path))
        end
  end.

Definition collect_misc_fonts (tmp : string) (dir : font_dir) : result groups :=
  match dir with
  | None => Ok ∅
  | Some files => collect_misc_dir tmp files ∅
  end.

(** Every group of the dict has an entry, and only positive pixel sizes. *)
Definition groups_ok (g : groups) : Prop :=
  ∀ k l, g !! k = Some l → l ≠ [] ∧ Forall (λ e : entry, 0 < e.1) l.

(** Every key of the dict carries one of the four styles. *)
Definition styles_ok (g : groups) : Prop :=
  ∀ k l, g !! k = Some l → k.2 ∈ STYLES.

(** ** Sorting and deduplication of a group *)

(** The deduplication loop of [build_font]: [seen] is [seen_px], [unique]
    the list built so far. *)
Fixpoint dedup_loop (seen : gset Z) (unique : list entry) (l : list entry)
  : list entry :=
  match l with
  | [] => unique
  | (px, path) :: t =>
      if decide (px ∈ seen)
      then dedup_loop seen unique t
      else dedup_loop ({[px]} ∪ seen) (unique ++ [(px, path)]) t
  end.

(** [bdf_entries] as [build_font] uses it from its line 206 on. *)
Definition sort_dedup (bdf_entries : list entry) : list entry :=
  dedup_loop ∅ [] (py_sorted fst false bdf_entries).

(** ** Building one font *)

(** [a // b] on integers. *)
Definition floordiv (a b : Z) : result Z :=
  if b =? 0 then Raise ZeroDivisionError else Ok (a / b).

(** [round(w / s)] for integers [w] and [s <> 0]: the integer nearest to
    the quotient, the even one when two are equally near.  Python forms
    the quotient in binary floating point; for the widths a font holds
    (far below [2^52]) the rounded quotient is a half-integer exactly when
    the exact one is, so the result is that of the exact quotient. *)
Definition round_div (w s : Z) : Z :=
  let q := w / s in
  let r := w mod s in
  if 2 * Z.abs r <? Z.abs s then q
  else if Z.abs s <? 2 * Z.abs r then q + 1
  else if Z.even q then q else q + 1.

(** [glyph.width = round(glyph.width / scale) * scale] *)
Definition round_width (scale w : Z) : Z := round_div w scale * scale.

Record metadata : Type := Metadata {
  meta_copyright : string;
  meta_notice : string;
  meta_foundry : string
}.

(** The attributes of the font object that the script sets, and the glyph
    advance widths. *)
Record font : Type := Font {
  em : Z;
  widths : list Z;
  familyname : string;
  fontname : string;
  fullname : string;
  weight : string;
  os2_weight : Z;
  os2_stylemap : Z;
  macstyle : Z;
  sfnt_names : list (string * string * string);
  copyright : option string;
  comment : string
}.

Fixpoint join (sep : string) (l : list string) : string :=
  match l with
  | [] => ""
  | [x] => x
  | x :: t => String.append x (String.append sep (join sep t))
  end.

Definition subfamily_of (style : string) : string :=
  PyStr.replace (PyStr.replace style "Oblique" "Italic") "BoldItalic" "Bold Italic".

Definition stylebits (style : string) : Z * Z :=
  if String.eqb style "BoldOblique" then (0x221, 0x3)
  else if String.eqb style "Bold" then (0x20, 0x1)
  else if String.eqb style "Oblique" then (0x201, 0x2)
  else (0x40, 0x0).

Definition nonempty (s : string) : bool := negb (String.eqb s "").

Section Host.
(** The font engine and the file system, which the script calls into. *)

(** [extract_bdf_metadata(path)]: the header fields of the file at
    [path], or the error of [open]. *)
Variable extract_bdf_metadata : string → result metadata.

(** [fontforge.open] of the smallest strike, [importBitmaps] of the
    others and of the largest one into the background, [em] set to the
    given value, [autoTrace], [addExtrema], [simplify]: the advance
    widths of the glyphs afterwards, or the engine's error.  The engine
    is taken to hand back the [em] it was given. *)
Variable host_trace : list entry → Z → result (list Z).

(** [font.generate(path, bitmap_type='otf')] and [font.close()]. *)
Variable host_generate : string → font → result ().

(** [build_font]: the name of the written file together with the font
    as it is written, [None] for an empty group. *)
Definition build_font (family style : string) (bdf_entries : list entry)
  : result (option (string * font)) :=
  match bdf_entries with
  | [] => Ok None
  | _ =>
      let bdf_entries := sort_dedup bdf_entries in
      match head bdf_entries, last bdf_entries with
      | Some (smallest_px, smallest_bdf), Some (largest_px, largest_bdf) =>
          meta ← extract_bdf_metadata smallest_bdf;
          let em := largest_px * 100 in
          traced ← host_trace bdf_entries em;
          scale ← floordiv em largest_px;
          let widths := round_width scale <$> traced in
          let bold := PyStr.contains "Bold" style in
          let comments :=
            (if nonempty (meta_notice meta) then [meta_notice meta] else [])
            ++ (if nonempty (meta_foundry meta)
                then [String.append "Original foundry: " (meta_foundry meta)]
                else [])
            ++ ["Converted from X11 bitmap fonts — all sizes as embedded bitmap strikes"] in
          let f := {|
            em := em;
            widths := widths;
            familyname := family;
            fontname := String.append family (String.append "-" style);
            fullname := String.append family (String.append " " style);
            weight := if bold then "Bold" else "Regular";
            os2_weight := if bold then 700 else 400;
            os2_stylemap := (stylebits style).1;
            macstyle := (stylebits style).2;
            sfnt_names :=
              [ ("English (US)", "Family", family);
                ("English (US)", "SubFamily", subfamily_of style);
                ("English (US)", "Fullname",
                   String.append family (String.append " " style));
                ("English (US)", "PostScriptName",
                   String.append family (String.append "-" style)) ];
            copyright :=
              if nonempty (meta_copyright meta)
              then Some (meta_copyright meta) else None;
            comment := join (String newline "") comments
          |} in
          let ttf_name :=
            String.append family (String.append "-" (String.append style ".ttf")) in
          _ ← host_generate ttf_name f;
          Ok (Some (ttf_name, f))
      | _, _ => Raise IndexError
      end
  end.

(** ** The run *)

(** [d.update(other)] *)
Definition dict_update (d other : groups) : groups := other ∪ d.

Definition merge_groups (prop_groups misc_groups : groups) : groups :=
  dict_update (dict_update ∅ prop_groups) misc_groups.

(** Order of tuples of two strings. *)
Definition key_leb (a b : string * string) : bool :=
  match String.compare a.1 b.1 with
  | Lt => true
  | Gt => false
  | Eq => String.leb a.2 b.2
  end.

(** [sorted(all_groups.items())]: the keys of a dict differ, so the
    order of the items is that of their keys. *)
Definition sorted_items (all_groups : groups)
  : list ((string * string) * list entry) :=
  stable_sort (λ a b, key_leb a.1 b.1) (map_to_list all_groups).

(** What the loop of [main] prints. *)
Inductive event : Type :=
  | GroupHeader (family style : string) (count : nat) (sizes : list Z)
  | Built (ttf_name : string)
  | Error (e : exn).

(** [sorted(set(px for px, _ in entries))] *)
Definition sizes_of (entries : list entry) : list Z :=
  py_sorted id false (elements (list_to_set entries.*1 : gset Z)).

(** The loop of [main] over the groups, with its [try]/[except]:
    [results] and the printed lines are threaded through. *)
Fixpoint build_all (items : list ((string * string) * list entry))
    (results : list string) (out : list event)
  : list string * list event :=
  match items with
  | [] => (results, out)
  | ((family, style), entries) :: rest =>
      let out := out ++ [GroupHeader family style (length entries) (sizes_of entries)] in
      match build_font family style entries with
      | Ok (Some (ttf_name, _)) =>
          build_all rest (results ++ [ttf_name]) (out ++ [Built ttf_name])
      | Ok None => build_all rest results out
      | Raise e => build_all rest results (out ++ [Error e])
      end
  end.

(** The name a group adds to [results]. *)
Definition built_name (item : (string * string) * list entry) : option string :=
  match build_font item.1.1 item.1.2 item.2 with
  | Ok (Some (ttf_name, _)) => Some ttf_name
  | _ => None
  end.

(** The lines the loop prints for a group. *)
Definition group_events (item : (string * string) * list entry) : list event :=
  GroupHeader item.1.1 item.1.2 (length item.2) (sizes_of item.2) ::
  match build_font item.1.1 item.1.2 item.2 with
  | Ok (Some (ttf_name, _)) => [Built ttf_name]
  | Ok None => []
  | Raise e => [Error e]
  end.

Definition main (tmp : string) (dir75 dir100 dir_misc : font_dir)
  : result (list string * list event) :=
  prop_groups ← collect_proportional_fonts tmp dir75 dir100;
  misc_groups ← collect_misc_fonts tmp dir_misc;
  let all_groups := merge_groups prop_groups misc_groups in
  Ok (build_all (sorted_items all_groups) [] []).

End Host.

(** ** Header metadata and temporary files *)

(** [s[n:]] *)
Fixpoint slice_from (n : nat) (s : string) : string :=
  match n, s with
  | O, _ => s
  | S n', String _ s' => slice_from n' s'
  | S _, EmptyString => EmptyString
  end.

(** [s.lstrip(...)] and [s.rstrip(...)], for the characters [p] holds of. *)
Fixpoint lstrip_by (p : ascii → bool) (s : string) : string :=
  match s with
  | EmptyString => EmptyString
  | String c s' => if p c then lstrip_by p s' else s
  end.

Fixpoint rstrip_by (p : ascii → bool) (s : string) : string :=
  match s with
  | EmptyString => EmptyString
  | String c s' =>
      match rstrip_by p s' with
      | EmptyString => if p c then EmptyString else String c EmptyString
      | r => String c r
      end
  end.

Definition strip_by (p : ascii → bool) (s : string) : string :=
  rstrip_by p (lstrip_by p s).

Definition double_quote : ascii := "034"%char.

(** [s.strip()], then the strip of the double quotes at both ends. *)
Definition header_value (s : string) : string :=
  strip_by (Ascii.eqb double_quote) (strip_by is_space s).

(** The loop of [extract_bdf_metadata] over the lines of the file; [meta]
    is the dict as it stands. *)
Fixpoint scan_metadata (lines : list string) (meta : metadata) : metadata :=
  match lines with
  | [] => meta
  | line :: rest =>
      if PyStr.startswith line "COPYRIGHT " then
        scan_metadata rest
          (Metadata (header_value (slice_from 10 line))
                    (meta_notice meta) (meta_foundry meta))
      else if PyStr.startswith line "NOTICE " then
        scan_metadata rest
          (Metadata (meta_copyright meta)
                    (header_value (slice_from 7 line)) (meta_foundry meta))
      else if PyStr.startswith line "FOUNDRY " then
        scan_metadata rest
          (Metadata (meta_copyright meta) (meta_notice meta)
                    (header_value (slice_from 8 line)))
      else if PyStr.startswith line "STARTCHAR" then meta
      else scan_metadata rest meta
  end.

(** [extract_bdf_metadata(bdf_path)], given what is stored at [bdf_path]:
    [None] when there is no such file ([open] fails). *)
Definition extract_bdf_metadata (bdf : option string) : result metadata :=
  match bdf with
  | None => Raise OSError
  | Some text => Ok (scan_metadata (readlines text) (Metadata "" "" ""))
  end.

(** The BDF files of the temporary directory, by path. *)
Abbreviation bdf_store := (string → option string).


(** [pcf_tmp] of [pcf_to_bdf]: the file the PCF data are unpacked to, which
    is removed once the BDF file is written. *)
Definition pcf_tmp_of (bdf_path : string) : string :=
  PyStr.replace bdf_path ".bdf" ".pcf".

(** The BDF paths the two collectors use. *)
Definition proportional_bdf_path (tmp dpi basename : string) : string :=
  path_join tmp (String.append basename
                  (String.append "_" (String.append dpi "dpi.bdf"))).

Definition misc_bdf_path (tmp basename : string) : string :=
  path_join tmp (String.append "misc_" (String.append basename ".bdf")).

(** [classify_proportional] over a table [table] in place of
    [PROPORTIONAL]. *)
Fixpoint classify_loop_in (table : dict (string * string))
    (prefixes : list string) (basename : string) : option (string * string) :=
  match prefixes with
  | [] => None
  | prefix :: rest =>
      if PyStr.startswith basename prefix
      then dict_get table prefix
      else classify_loop_in table rest basename
  end.

Definition classify_in (table : dict (string * string)) (basename : string)
  : option (string * string) :=
  classify_loop_in table (py_sorted len true (dict_keys table)) basename.

(** The families the two tables name. *)
Definition FAMILIES : list string :=
  [ "X11Helv"; "X11LuSans"; "X11LuType"; "X11Term";
    "X11Misc5x"; "X11Misc6x"; "X11Misc7x"; "X11Misc8x"; "X11Misc9x";
    "X11Misc10x"; "X11Misc12x" ].

(** The name of the file [build_font] writes for a group. *)
Definition ttf_name_of (key : string * string) : string :=
  String.append key.1 (String.append "-" (String.append key.2 ".ttf")).

(** ** What the collectors accept *)

(** The key under which the proportional collector files a font file,
    [None] when it passes the file over before converting it. *)
Definition proportional_key (f : pcf_file) : option (string * string) :=
  if has_charset_marker (basename_of f) then None
  else classify_proportional (basename_of f).

(** The same for the misc collector, with the size of the table. *)
Definition misc_key (f : pcf_file) : option (string * string * Z) :=
  if has_charset_marker (basename_of f) then None
  else if existsb (PyStr.startswith (basename_of f)) MISC_SKIP_PREFIXES then None
  else dict_get MISC_MAP (basename_of f).

(** The entries of a group, none when the dict lacks the key. *)
Definition group_entries (g : groups) (key : string * string) : list entry :=
  default [] (g !! key).

(** A key made of a family and a style that the tables name. *)
Definition known_key (key : string * string) : Prop :=
  key.1 ∈ FAMILIES ∧ key.2 ∈ STYLES.


(** ** A small run

    Two resolution directories and a misc directory with a handful of
    files, and an engine that fails on groups of two strikes; the
    statements below are exercised on it. *)

Definition demo_metadata (_ : string) : result metadata :=
  Ok (Metadata "(c) 1984 Adobe" "Helvetica is a trademark" "Adobe").

Definition demo_trace (l : list entry) (_ : Z) : result (list Z) :=
  if decide (length l = 2%nat) then Raise (HostError "trace failed")
  else Ok [549; 550; 551; 650; -50; -150; 1200].

Definition demo_generate (_ : string) (_ : font) : result () := Ok ().

Definition demo_75dpi : list pcf_file :=
  [ PcfFile "helvB12.pcf.gz" (Some "PIXEL_SIZE 12");
    PcfFile "helvR10.pcf.gz" (Some "FONT helv
PIXEL_SIZE 10
STARTCHAR space
");
    PcfFile "helvR12-ISO8859-1.pcf.gz" (Some "PIXEL_SIZE 12");
    PcfFile "helvR12.pcf.gz" (Some "PIXEL_SIZE 10") ].

Definition demo_100dpi : list pcf_file :=
  [ PcfFile "helvB12.pcf.gz" (Some "PIXEL_SIZE 17");
    PcfFile "helvR10.pcf.gz" (Some "PIXEL_SIZE 14");
    PcfFile "helvR08.pcf.gz" (Some "PIXEL_SIZE 8") ].

Definition demo_misc : list pcf_file :=
  [ PcfFile "6x13.pcf.gz" (Some "PIXEL_SIZE 13");
    PcfFile "6x13B.pcf.gz" (Some "");
    PcfFile "cursor.pcf.gz" (Some "") ].

Definition demo_prop_groups : groups :=
  Eval vm_compute in
    match collect_proportional_fonts "/tmp/x" (Some demo_75dpi) (Some demo_100dpi) with
    | Ok g => g
    | Raise _ => ∅
    end.

Definition demo_misc_groups : groups :=
  Eval vm_compute in
    match collect_misc_fonts "/tmp/x" (Some demo_misc) with
    | Ok g => g
    | Raise _ => ∅
    end.

Definition demo_entries : list entry :=
  [ (10, "/tmp/x/helvR10_75dpi.bdf"); (10, "/tmp/x/helvR12_75dpi.bdf");
    (14, "/tmp/x/helvR10_100dpi.bdf"); (8, "/tmp/x/helvR08_100dpi.bdf") ].

Definition demo_font : font :=
  Eval vm_compute in
    match build_font demo_metadata demo_trace demo_generate
            "X11Helv" "BoldOblique" demo_entries with
    | Ok (Some (_, f)) => f
    | _ => Font 0 [] "" "" "" "" 0 0 0 [] None ""
    end.

(** * Properties *)

(** ** Strings *)

Section StringFacts.
Import PyStr.

Lemma ascii_eqb_true (c d : ascii) : Ascii.eqb c d = true ↔ c = d.
Proof. apply Ascii.eqb_eq. Qed.

Lemma append_cons (c : ascii) (p t : string) :
  String.append (String c p) t = String c (String.append p t).
Proof. reflexivity. Qed.

Lemma startswith_app (s p : string) :
  startswith s p = true ↔ ∃ t, s = String.append p t.
Proof.
  revert s. induction p as [|c p IH]; intros s; simpl.
  - split; [by exists s|done].
  - destruct s as [|d s]; simpl.
    + split; [done|]. intros [t Ht]. by rewrite append_cons in Ht.
    + destruct (Ascii.eqb c d) eqn:E.
      * apply ascii_eqb_true in E as ->. rewrite IH.
        split; intros [t Ht]; exists t; rewrite append_cons in *; congruence.
      * split; [done|]. intros [t Ht]. rewrite append_cons in Ht. injection Ht as -> _.
        by rewrite Ascii.eqb_refl in E.
Qed.

Lemma startswith_refl (s : string) : startswith s s = true.
Proof.
  induction s as [|c s IH]; simpl; [done|]. by rewrite Ascii.eqb_refl.
Qed.

Lemma startswith_length (s p : string) :
  startswith s p = true → (String.length p ≤ String.length s)%nat.
Proof.
  revert s. induction p as [|c p IH]; intros [|d s]; simpl; try done; try lia.
  destruct (Ascii.eqb c d); [|done]. intros H%IH. lia.
Qed.

(** Two prefixes of one string: the shorter is a prefix of the longer. *)
Lemma startswith_chain (s p q : string) :
  startswith s p = true → startswith s q = true →
  (String.length q ≤ String.length p)%nat → startswith p q = true.
Proof.
  revert s p. induction q as [|c q IH]; intros s p; simpl; [done|].
  destruct s as [|d s]; [done|].
  destruct p as [|e p]; simpl; [lia|].
  destruct (Ascii.eqb e d) eqn:E1; [|done].
  destruct (Ascii.eqb c d) eqn:E2; [|done].
  apply ascii_eqb_true in E1 as ->. apply ascii_eqb_true in E2 as ->.
  rewrite Ascii.eqb_refl. intros ???. eapply IH; eauto. lia.
Qed.

Lemma startswith_same_length (p q : string) :
  startswith p q = true → String.length p = String.length q → p = q.
Proof.
  revert p. induction q as [|c q IH]; intros [|d p]; simpl; try done.
  destruct (Ascii.eqb c d) eqn:E; [|done].
  apply ascii_eqb_true in E as ->. intros ? [=]. f_equal. by apply IH.
Qed.

Lemma string_eqb_true (a b : string) : String.eqb a b = true ↔ a = b.
Proof. apply String.eqb_eq. Qed.
End StringFacts.

(** ** Stable sort *)

Lemma StronglySorted_weaken {A} (R S : relation A) (l : list A) :
  (∀ x y, R x y → S x y) → StronglySorted R l → StronglySorted S l.
Proof.
  intros HRS. induction 1 as [|x t Hs IH Hx]; constructor; [done|].
  eapply Forall_impl; eauto.
Qed.

Section StableSortFacts.
Context {A : Type} (before : A → A → bool).

Lemma insert_sorted_perm (x : A) (l : list A) :
  insert_sorted before x l ≡ₚ x :: l.
Proof.
  induction l as [|y t IH]; simpl; [done|].
  destruct (before x y); [done|]. rewrite IH. apply Permutation_swap.
Qed.

Lemma stable_sort_perm (l : list A) : stable_sort before l ≡ₚ l.
Proof.
  induction l as [|x t IH]; simpl; [done|].
  by rewrite insert_sorted_perm, IH.
Qed.

Lemma elem_of_stable_sort (x : A) (l : list A) :
  x ∈ stable_sort before l ↔ x ∈ l.
Proof. by rewrite stable_sort_perm. Qed.

Hypothesis before_total : ∀ x y, before x y = false → before y x = true.
Hypothesis before_trans :
  ∀ x y z, before x y = true → before y z = true → before x z = true.

Lemma insert_sorted_sorted (x : A) (l : list A) :
  StronglySorted (λ a b, before a b = true) l →
  StronglySorted (λ a b, before a b = true) (insert_sorted before x l).
Proof.
  induction 1 as [|y t Hs IH Hy]; simpl.
  - repeat constructor.
  - destruct (before x y) eqn:E.
    + constructor; [by constructor|].
      constructor; [done|]. eapply Forall_impl; eauto.
    + constructor; [done|].
      rewrite insert_sorted_perm. constructor; [|done]. by apply before_total.
Qed.

Lemma stable_sort_sorted (l : list A) :
  StronglySorted (λ a b, before a b = true) (stable_sort before l).
Proof.
  induction l as [|x t IH]; simpl; [constructor|].
  by apply insert_sorted_sorted.
Qed.

(** Sorting a list that is in order leaves it as it is. *)
Lemma stable_sort_id (l : list A) :
  StronglySorted (λ a b, before a b = true) l → stable_sort before l = l.
Proof.
  induction 1 as [|x t Hs IH Hx]; simpl; [done|].
  rewrite IH. destruct Hx as [|y t' Hy _]; simpl; [done|]. by rewrite Hy.
Qed.
End StableSortFacts.

Section KeySortFacts.
Context {A : Type} (key : A → Z) (reverse : bool).

Lemma goes_before_total (x y : A) :
  goes_before key reverse x y = false → goes_before key reverse y x = true.
Proof. unfold goes_before. destruct reverse; lia. Qed.

Lemma goes_before_trans (x y z : A) :
  goes_before key reverse x y = true → goes_before key reverse y z = true →
  goes_before key reverse x z = true.
Proof. unfold goes_before. destruct reverse; lia. Qed.

Lemma py_sorted_perm (l : list A) : py_sorted key reverse l ≡ₚ l.
Proof. apply stable_sort_perm. Qed.

Lemma py_sorted_sorted (l : list A) :
  StronglySorted (λ a b, goes_before key reverse a b = true)
                 (py_sorted key reverse l).
Proof.
  apply stable_sort_sorted; [apply goes_before_total|apply goes_before_trans].
Qed.

(** Stability: the entries of one key stand in their original order. *)
Lemma insert_sorted_filter (k : Z) (x : A) (l : list A) :
  filter (λ e, key e = k) (insert_sorted (goes_before key reverse) x l)
  = filter (λ e, key e = k) (x :: l).
Proof.
  induction l as [|y t IH]; simpl; [done|].
  destruct (goes_before key reverse x y) eqn:E; [done|].
  rewrite filter_cons, IH, !filter_cons.
  assert (key x ≠ key y) by (unfold goes_before in E; destruct reverse; lia).
  repeat case_decide; congruence.
Qed.

Lemma py_sorted_filter (k : Z) (l : list A) :
  filter (λ e, key e = k) (py_sorted key reverse l) = filter (λ e, key e = k) l.
Proof.
  induction l as [|x t IH]; [done|].
  unfold py_sorted in *. simpl. rewrite insert_sorted_filter, !filter_cons, IH.
  done.
Qed.
End KeySortFacts.

(** ** C1: the proportional classifier *)

Lemma dict_get_Some_key {V} (d : dict V) (k : string) (v : V) :
  dict_get d k = Some v → k ∈ dict_keys d.
Proof.
  unfold dict_keys. induction d as [|[k' v'] t IH]; simpl; [done|].
  destruct (String.eqb k' k) eqn:E.
  - apply string_eqb_true in E as ->. intros _. apply list_elem_of_here.
  - intros H. apply list_elem_of_further. auto.
Qed.

Lemma dict_get_is_Some {V} (d : dict V) (k : string) :
  k ∈ dict_keys d → is_Some (dict_get d k).
Proof.
  unfold dict_keys. induction d as [|[k' v'] t IH]; simpl.
  - by intros ?%elem_of_nil.
  - intros [->|H]%elem_of_cons.
    + rewrite String.eqb_refl. eauto.
    + destruct (String.eqb k' k); eauto.
Qed.

Lemma sorted_prefixes_elem (p : string) :
  p ∈ sorted_prefixes ↔ p ∈ dict_keys PROPORTIONAL.
Proof. unfold sorted_prefixes. by rewrite py_sorted_perm. Qed.

Lemma sorted_prefixes_sorted :
  StronglySorted (λ p q : string, len q ≤ len p) sorted_prefixes.
Proof.
  eapply StronglySorted_weaken; [|apply py_sorted_sorted].
  intros p q. unfold goes_before. lia.
Qed.

Lemma classify_loop_first (L : list string) (basename : string) :
  StronglySorted (λ p q : string, len q ≤ len p) L →
  (∃ p, p ∈ L ∧ PyStr.startswith basename p = true
        ∧ classify_loop L basename = dict_get PROPORTIONAL p
        ∧ ∀ q, q ∈ L → PyStr.startswith basename q = true → len q ≤ len p)
  ∨ (classify_loop L basename = None
     ∧ ∀ q, q ∈ L → PyStr.startswith basename q = false).
Proof.
  induction 1 as [|p t Hs IH Hp]; simpl.
  - right. split; [done|]. by intros q ?%elem_of_nil.
  - destruct (PyStr.startswith basename p) eqn:E.
    + left. exists p. split_and!; [apply list_elem_of_here|done|done|].
      intros q [->|Hq]%elem_of_cons _; [lia|].
      rewrite Forall_forall in Hp. by apply Hp.
    + destruct IH as [(p0 & Hin & Hsw & Hcl & Hmax)|[Hnone Hall]].
      * left. exists p0. split_and!; [by apply list_elem_of_further|done|done|].
        intros q [->|Hq]%elem_of_cons Hq'; [congruence|]. by apply Hmax.
      * right. split; [done|]. intros q [->|Hq]%elem_of_cons; auto.
Qed.

Lemma classify_proportional_first (basename : string) :
  (∃ p fs, p ∈ dict_keys PROPORTIONAL ∧ PyStr.startswith basename p = true
        ∧ classify_proportional basename = Some fs
        ∧ dict_get PROPORTIONAL p = Some fs
        ∧ ∀ q, q ∈ dict_keys PROPORTIONAL →
               PyStr.startswith basename q = true → len q ≤ len p)
  ∨ (classify_proportional basename = None
     ∧ ∀ q, q ∈ dict_keys PROPORTIONAL → PyStr.startswith basename q = false).
Proof.
  destruct (classify_loop_first sorted_prefixes basename sorted_prefixes_sorted)
    as [(p & Hin & Hsw & Hcl & Hmax)|[Hnone Hall]].
  - left. apply sorted_prefixes_elem in Hin.
    destruct (dict_get_is_Some _ _ Hin) as [fs Hfs].
    exists p, fs. split_and!; try done.
    + unfold classify_proportional. congruence.
    + intros q Hq. apply Hmax. by apply sorted_prefixes_elem.
  - right. split; [done|]. intros q Hq. apply Hall. by apply sorted_prefixes_elem.
Qed.

Lemma len_le_length (p q : string) :
  len q ≤ len p ↔ (String.length q ≤ String.length p)%nat.
Proof. unfold len. lia. Qed.

(** A key of the table that the basename starts with and that no other
    such key exceeds in length decides the result. *)
Lemma classify_proportional_longest (basename p : string) (fs : string * string) :
  dict_get PROPORTIONAL p = Some fs →
  PyStr.startswith basename p = true →
  (∀ q, q ∈ dict_keys PROPORTIONAL →
        PyStr.startswith basename q = true → len q ≤ len p) →
  classify_proportional basename = Some fs.
Proof.
  intros Hget Hsw Hmax.
  pose proof (dict_get_Some_key _ _ _ Hget) as Hkey.
  destruct (classify_proportional_first basename)
    as [(p0 & fs0 & Hin & Hsw0 & Hcl & Hget0 & Hmax0)|[_ Hall]].
  - assert (p0 = p) as ->; [|congruence].
    pose proof (Hmax p0 Hin Hsw0) as H1. pose proof (Hmax0 p Hkey Hsw) as H2.
    apply len_le_length in H1, H2.
    apply startswith_same_length; [|lia].
    eapply startswith_chain; eauto.
  - rewrite (Hall p Hkey) in Hsw. done.
Qed.

Ltac case_elems H :=
  repeat (apply elem_of_cons in H as [->|H]); [..|by apply elem_of_nil in H].

(** Claim C1.  For every basename, [classify_proportional] returns the
    (family, style) that the table maps the longest key being a textual
    prefix of the basename to, and no match exactly when no key of the
    table is a prefix of it; a basename that starts with "helvBO" (and so
    with "helvB") resolves to (X11Helv, BoldOblique); and when a key [q]
    is a proper prefix of a key [p] that the basename starts with, the
    result is that of a key strictly longer than [q]. *)
Theorem classify_proportional_longest_prefix (basename : string) :
  (∀ fs, classify_proportional basename = Some fs ↔
     ∃ p, dict_get PROPORTIONAL p = Some fs
          ∧ PyStr.startswith basename p = true
          ∧ ∀ q, q ∈ dict_keys PROPORTIONAL →
                 PyStr.startswith basename q = true →
                 (String.length q ≤ String.length p)%nat)
  ∧ (classify_proportional basename = None ↔
     ∀ q, q ∈ dict_keys PROPORTIONAL → PyStr.startswith basename q = false)
  ∧ (PyStr.startswith basename "helvB" = true →
     PyStr.startswith basename "helvBO" = true →
     classify_proportional basename = Some ("X11Helv", "BoldOblique"))
  ∧ (∀ p q fs,
       p ∈ dict_keys PROPORTIONAL → q ∈ dict_keys PROPORTIONAL →
       PyStr.startswith p q = true → p ≠ q →
       PyStr.startswith basename p = true →
       classify_proportional basename = Some fs →
       ∃ p', dict_get PROPORTIONAL p' = Some fs
             ∧ PyStr.startswith basename p' = true
             ∧ (String.length q < String.length p')%nat).
Proof.
  assert (Hsome : ∀ fs, classify_proportional basename = Some fs →
     ∃ p, dict_get PROPORTIONAL p = Some fs
          ∧ PyStr.startswith basename p = true
          ∧ ∀ q, q ∈ dict_keys PROPORTIONAL →
                 PyStr.startswith basename q = true →
                 (String.length q ≤ String.length p)%nat).
  { intros fs Hfs.
    destruct (classify_proportional_first basename)
      as [(p & fs0 & Hin & Hsw & Hcl & Hget & Hmax)|[Hnone _]]; [|congruence].
    exists p. split_and!; [congruence|done|].
    intros q Hq Hq'. apply len_le_length. by apply Hmax. }
  split_and!.
  - intros fs. split; [apply Hsome|].
    intros (p & Hget & Hsw & Hmax).
    apply (classify_proportional_longest basename p fs); [done..|].
    intros q Hq Hq'. apply len_le_length. by apply Hmax.
  - split.
    + intros Hnone.
      destruct (classify_proportional_first basename)
        as [(p & fs0 & _ & _ & Hcl & _)|[_ Hall]]; [congruence|done].
    + intros Hall.
      destruct (classify_proportional_first basename)
        as [(p & fs0 & Hin & Hsw & _)|[Hnone _]]; [|done].
      rewrite (Hall p Hin) in Hsw. done.
  - intros _ Hsw.
    apply (classify_proportional_longest basename "helvBO"); [done..|].
    intros q Hq _. unfold dict_keys in Hq. simpl in Hq.
    case_elems Hq; by vm_compute.
  - intros p q fs Hp Hq Hpq Hne Hsw Hfs.
    destruct (Hsome fs Hfs) as (p' & Hget & Hsw' & Hmax).
    exists p'. split_and!; [done..|].
    pose proof (Hmax p Hp Hsw) as Hle.
    pose proof (startswith_length _ _ Hpq) as Hle'.
    destruct (decide (String.length p = String.length q)) as [Heq|Hneq]; [|lia].
    by apply startswith_same_length in Hpq.
Qed.

(** ** Sorting and deduplication *)

Section DedupFacts.
Implicit Types (seen : gset Z) (l unique : list entry) (e : entry).

Lemma dedup_loop_app seen unique l :
  dedup_loop seen unique l = unique ++ dedup_loop seen [] l.
Proof.
  revert seen unique. induction l as [|[px path] t IH]; intros seen unique; simpl.
  - by rewrite app_nil_r.
  - case_decide; [apply IH|].
    rewrite (IH _ (unique ++ _)), (IH _ [_]). by rewrite <-app_assoc.
Qed.

Lemma dedup_loop_cons seen px path l :
  dedup_loop seen [] ((px, path) :: l) =
    if decide (px ∈ seen) then dedup_loop seen [] l
    else (px, path) :: dedup_loop ({[px]} ∪ seen) [] l.
Proof. simpl. case_decide; [done|]. by rewrite dedup_loop_app. Qed.

Lemma dedup_loop_elem seen l e :
  e ∈ dedup_loop seen [] l → e ∈ l ∧ e.1 ∉ seen.
Proof.
  revert seen. induction l as [|[px path] t IH]; intros seen.
  - by intros ?%elem_of_nil.
  - rewrite dedup_loop_cons. case_decide as Hseen.
    + intros [? ?]%IH. split; [by apply list_elem_of_further|done].
    + intros [->|[? [_ ?]%not_elem_of_union]%IH]%elem_of_cons.
      * split; [apply list_elem_of_here|done].
      * split; [by apply list_elem_of_further|done].
Qed.

(** Every pixel size of the list that was not seen before is kept. *)
Lemma dedup_loop_covers seen l e :
  e ∈ l → e.1 ∉ seen → ∃ e', e' ∈ dedup_loop seen [] l ∧ e'.1 = e.1.
Proof.
  revert seen. induction l as [|[px path] t IH]; intros seen.
  - by intros ?%elem_of_nil.
  - rewrite dedup_loop_cons. intros [->|Hin]%elem_of_cons Hseen.
    + simpl in Hseen. rewrite decide_False by done.
      eexists. split; [apply list_elem_of_here|done].
    + case_decide as Hpx; [by apply IH|].
      destruct (decide (e.1 = px)) as [<-|Hne].
      * exists (e.1, path). split; [apply list_elem_of_here|done].
      * destruct (IH ({[px]} ∪ seen) Hin) as (e' & ? & ?).
        { apply not_elem_of_union. by rewrite elem_of_singleton. }
        exists e'. split; [by apply list_elem_of_further|done].
Qed.

(** The entry kept for a pixel size is the first one of that size. *)
Lemma dedup_loop_first seen l e :
  e ∈ dedup_loop seen [] l → head (filter (λ x, x.1 = e.1) l) = Some e.
Proof.
  revert seen. induction l as [|[px path] t IH]; intros seen.
  - by intros ?%elem_of_nil.
  - rewrite dedup_loop_cons, filter_cons. simpl. case_decide as Hseen.
    + intros He. pose proof (dedup_loop_elem _ _ _ He) as [_ Hne].
      rewrite decide_False by congruence. by eapply IH.
    + intros [->|He]%elem_of_cons.
      * by rewrite decide_True.
      * pose proof (dedup_loop_elem _ _ _ He) as [_ Hne].
        rewrite decide_False by set_solver. by eapply IH.
Qed.

Lemma dedup_loop_strict seen l :
  StronglySorted (λ a b : entry, a.1 ≤ b.1) l →
  StronglySorted (λ a b : entry, a.1 < b.1) (dedup_loop seen [] l).
Proof.
  intros Hs. revert seen. induction Hs as [|[px path] t Hs IH Hx]; intros seen.
  - constructor.
  - rewrite dedup_loop_cons. case_decide; [apply IH|].
    constructor; [apply IH|].
    apply Forall_forall. intros b [Hb Hne]%dedup_loop_elem.
    rewrite Forall_forall in Hx. specialize (Hx b Hb). simpl in *.
    assert (b.1 ≠ px) by set_solver. lia.
Qed.

Lemma dedup_loop_id seen l :
  StronglySorted (λ a b : entry, a.1 < b.1) l →
  Forall (λ e, e.1 ∉ seen) l →
  dedup_loop seen [] l = l.
Proof.
  intros Hs. revert seen. induction Hs as [|[px path] t Hs IH Hx]; intros seen Hf.
  - done.
  - rewrite dedup_loop_cons. apply Forall_cons in Hf as [Hpx Hf].
    rewrite decide_False by done. f_equal. apply IH.
    rewrite Forall_forall in *. intros b Hb.
    specialize (Hx b Hb). specialize (Hf b Hb). simpl in *.
    assert (b.1 ≠ px) by lia.
    apply not_elem_of_union. by rewrite elem_of_singleton.
Qed.

Lemma sorted_by_px bdf_entries :
  StronglySorted (λ a b : entry, a.1 ≤ b.1) (py_sorted fst false bdf_entries).
Proof.
  eapply StronglySorted_weaken; [|apply py_sorted_sorted].
  intros a b. unfold goes_before. lia.
Qed.

Lemma sort_dedup_strict bdf_entries :
  StronglySorted (λ a b : entry, a.1 < b.1) (sort_dedup bdf_entries).
Proof. apply dedup_loop_strict, sorted_by_px. Qed.

Lemma sort_dedup_elem bdf_entries e :
  e ∈ sort_dedup bdf_entries ↔
  e ∈ bdf_entries ∧ head (filter (λ x, x.1 = e.1) bdf_entries) = Some e.
Proof.
  unfold sort_dedup. split.
  - intros He. split.
    + apply dedup_loop_elem in He as [He _]. by rewrite py_sorted_perm in He.
    + apply dedup_loop_first in He. by rewrite py_sorted_filter in He.
  - intros [Hin Hfirst].
    destruct (dedup_loop_covers ∅ (py_sorted fst false bdf_entries) e)
      as (e' & He' & Hpx); [by rewrite py_sorted_perm|set_solver|].
    pose proof (dedup_loop_first _ _ _ He') as Hfirst'.
    rewrite py_sorted_filter, Hpx, Hfirst in Hfirst'. congruence.
Qed.

Lemma sort_dedup_nonempty bdf_entries :
  bdf_entries ≠ [] → sort_dedup bdf_entries ≠ [].
Proof.
  destruct bdf_entries as [|e t]; [done|]. intros _ Hnil.
  destruct (dedup_loop_covers ∅ (py_sorted fst false (e :: t)) e)
    as (e' & He' & _); [rewrite py_sorted_perm; apply list_elem_of_here|set_solver|].
  unfold sort_dedup in Hnil. rewrite Hnil in He'. by apply elem_of_nil in He'.
Qed.

Lemma sorted_head_le {A} (R : relation A) `{!Reflexive R} (l : list A) a x :
  StronglySorted R l → head l = Some a → x ∈ l → R a x.
Proof.
  intros Hs Hh Hx. destruct Hs as [|y t Hs Hy]; [done|].
  simpl in Hh. injection Hh as ->.
  apply elem_of_cons in Hx as [->|Hx]; [done|].
  rewrite Forall_forall in Hy. auto.
Qed.

Lemma sorted_last_ge {A} (R : relation A) `{!Reflexive R} (l : list A) z x :
  StronglySorted R l → last l = Some z → x ∈ l → R x z.
Proof.
  intros Hs. induction Hs as [|y t Hs IH Hy]; [done|].
  intros Hl Hx. destruct t as [|y' t'].
  - simpl in Hl. injection Hl as ->. by apply list_elem_of_singleton in Hx as ->.
  - rewrite last_cons_cons in Hl.
    apply elem_of_cons in Hx as [->|Hx]; [|auto].
    rewrite Forall_forall in Hy. apply Hy. by apply last_Some_elem_of.
Qed.

(** The first kept entry is a smallest member and the last kept entry a
    largest member of the group. *)
Lemma sort_dedup_bounds bdf_entries first final m :
  head (sort_dedup bdf_entries) = Some first →
  last (sort_dedup bdf_entries) = Some final →
  m ∈ bdf_entries → first.1 ≤ m.1 ≤ final.1.
Proof.
  intros Hh Hl Hm.
  destruct (dedup_loop_covers ∅ (py_sorted fst false bdf_entries) m)
    as (m' & Hm' & <-); [by rewrite py_sorted_perm|set_solver|].
  assert (StronglySorted (λ a b : entry, a.1 ≤ b.1) (sort_dedup bdf_entries)) as Hs.
  { eapply StronglySorted_weaken; [|apply sort_dedup_strict]. simpl. lia. }
  assert (Reflexive (λ a b : entry, a.1 ≤ b.1)) by (intros ?; lia).
  split.
  - eapply (sorted_head_le (λ a b : entry, a.1 ≤ b.1)); eauto.
  - eapply (sorted_last_ge (λ a b : entry, a.1 ≤ b.1)); eauto.
Qed.

(** [sort_dedup] leaves its own results as they are. *)
Lemma sort_dedup_fixed l :
  StronglySorted (λ a b : entry, a.1 < b.1) l → sort_dedup l = l.
Proof.
  intros Hs. unfold sort_dedup, py_sorted. rewrite stable_sort_id.
  - apply dedup_loop_id; [done|]. apply Forall_forall. set_solver.
  - eapply StronglySorted_weaken; [|done]. intros a b. unfold goes_before. lia.
Qed.
End DedupFacts.

(** ** What the collectors put into a group *)

Lemma bind_Ok {A B} (m : result A) (f : A → result B) (b : B) :
  m ≫= f = Ok b → ∃ a, m = Ok a ∧ f a = Ok b.
Proof. destruct m as [a|e]; [eauto|done]. Qed.


Lemma groups_ok_empty : groups_ok ∅.
Proof. intros k l. by rewrite lookup_empty. Qed.

Lemma append_entry_ok (g : groups) (k : string * string) (e : entry) :
  groups_ok g → 0 < e.1 → groups_ok (append_entry g k e).
Proof.
  intros Hg He k' l. unfold append_entry. rewrite lookup_insert.
  case_decide; [|apply Hg]. intros [= <-]. split.
  - by destruct (default [] (g !! k)).
  - apply Forall_app. split; [|by constructor].
    destruct (g !! k) as [l0|] eqn:E; simpl; [by apply (Hg k)|constructor].
Qed.

Lemma collect_proportional_dir_cons (tmp dpi : string) (f : pcf_file)
    (rest : list pcf_file) (g : groups) :
  collect_proportional_dir tmp dpi (f :: rest) g =
    if has_charset_marker (basename_of f)
    then collect_proportional_dir tmp dpi rest g
    else
      match classify_proportional (basename_of f) with
      | None => collect_proportional_dir tmp dpi rest g
      | Some (family, style) =>
          px ← get_pixel_size (bdf_text f);
          if 0 <? px
          then collect_proportional_dir tmp dpi rest
                 (append_entry g (family, style)
                    (px, path_join tmp
                           (String.append (basename_of f)
                              (String.append "_" (String.append dpi "dpi.bdf")))))
          else collect_proportional_dir tmp dpi rest g
      end.
Proof. reflexivity. Qed.

Lemma collect_misc_dir_cons (tmp : string) (f : pcf_file)
    (rest : list pcf_file) (g : groups) :
  collect_misc_dir tmp (f :: rest) g =
    if has_charset_marker (basename_of f) then collect_misc_dir tmp rest g
    else if existsb (PyStr.startswith (basename_of f)) MISC_SKIP_PREFIXES
    then collect_misc_dir tmp rest g
    else
      match dict_get MISC_MAP (basename_of f) with
      | None => collect_misc_dir tmp rest g
      | Some (family, style, px) =>
          actual_px ← get_pixel_size (bdf_text f);
          collect_misc_dir tmp rest
            (append_entry g (family, style)
               (if 0 <? actual_px then actual_px else px,
                path_join tmp
                  (String.append "misc_" (String.append (basename_of f) ".bdf"))))
      end.
Proof. reflexivity. Qed.

Lemma collect_proportional_dir_ok (tmp dpi : string) (files : list pcf_file)
    (g g' : groups) :
  groups_ok g → collect_proportional_dir tmp dpi files g = Ok g' → groups_ok g'.
Proof.
  revert g. induction files as [|f rest IH]; intros g Hg.
  - by intros [= <-].
  - rewrite collect_proportional_dir_cons.
    destruct (has_charset_marker (basename_of f)); [by apply IH|].
    destruct (classify_proportional (basename_of f)) as [[family style]|];
      [|by apply IH].
    destruct (get_pixel_size (bdf_text f)) as [px|e]; simpl; [|done].
    destruct (0 <? px) eqn:Hpx; [|by apply IH].
    apply IH, append_entry_ok; [done|]. simpl. lia.
Qed.

Lemma collect_proportional_fonts_ok (tmp : string) (dir75 dir100 : font_dir)
    (g : groups) :
  collect_proportional_fonts tmp dir75 dir100 = Ok g → groups_ok g.
Proof.
  unfold collect_proportional_fonts.
  assert (∃ r, r = match dir75 with
                   | None => Ok ∅
                   | Some files => collect_proportional_dir tmp "75" files ∅
                   end) as [r Hr] by eauto.
  rewrite <-Hr. destruct r as [g75|e]; simpl; [|done].
  assert (groups_ok g75) as H75.
  { destruct dir75 as [files|].
    - symmetry in Hr. eapply collect_proportional_dir_ok; [|done].
      apply groups_ok_empty.
    - injection Hr as ->. apply groups_ok_empty. }
  destruct dir100 as [files|].
  - by apply collect_proportional_dir_ok.
  - by intros [= <-].
Qed.

Lemma dict_get_elem {V} (d : dict V) (k : string) (v : V) :
  dict_get d k = Some v → (k, v) ∈ d.
Proof.
  induction d as [|[k' v'] t IH]; simpl; [done|].
  destruct (String.eqb k' k) eqn:E.
  - apply string_eqb_true in E as ->. intros [= ->]. apply list_elem_of_here.
  - intros H. apply list_elem_of_further. auto.
Qed.

Lemma MISC_MAP_positive (basename family style : string) (px : Z) :
  dict_get MISC_MAP basename = Some (family, style, px) → 0 < px.
Proof.
  intros H%dict_get_elem.
  assert (Forall (λ kv : string * (string * string * Z), 0 < kv.2.2) MISC_MAP) as Hall.
  { apply (bool_decide_unpack _). by vm_compute. }
  rewrite Forall_forall in Hall. apply (Hall _ H).
Qed.

Lemma collect_misc_dir_ok (tmp : string) (files : list pcf_file) (g g' : groups) :
  groups_ok g → collect_misc_dir tmp files g = Ok g' → groups_ok g'.
Proof.
  revert g. induction files as [|f rest IH]; intros g Hg.
  - by intros [= <-].
  - rewrite collect_misc_dir_cons.
    destruct (has_charset_marker (basename_of f)); [by apply IH|].
    destruct (existsb (PyStr.startswith (basename_of f)) MISC_SKIP_PREFIXES);
      [by apply IH|].
    destruct (dict_get MISC_MAP (basename_of f)) as [[[family style] px0]|] eqn:Hmap;
      [|by apply IH].
    apply MISC_MAP_positive in Hmap.
    destruct (get_pixel_size (bdf_text f)) as [px|e]; simpl; [|done].
    apply IH, append_entry_ok; [done|]. simpl.
    destruct (0 <? px) eqn:Hpx; lia.
Qed.

Lemma collect_misc_fonts_ok (tmp : string) (dir : font_dir) (g : groups) :
  collect_misc_fonts tmp dir = Ok g → groups_ok g.
Proof.
  destruct dir as [files|]; simpl.
  - apply collect_misc_dir_ok, groups_ok_empty.
  - intros [= <-]. apply groups_ok_empty.
Qed.

Lemma merge_groups_lookup (prop_groups misc_groups : groups) (k : string * string) :
  merge_groups prop_groups misc_groups !! k =
    match misc_groups !! k with
    | Some l => Some l
    | None => prop_groups !! k
    end.
Proof.
  unfold merge_groups, dict_update. rewrite !lookup_union, lookup_empty.
  destruct (misc_groups !! k), (prop_groups !! k); done.
Qed.

Lemma merge_groups_ok (prop_groups misc_groups : groups) :
  groups_ok prop_groups → groups_ok misc_groups →
  groups_ok (merge_groups prop_groups misc_groups).
Proof.
  intros Hp Hm k l. rewrite merge_groups_lookup.
  destruct (misc_groups !! k) eqn:E; [intros [= <-]; by apply (Hm k)|apply Hp].
Qed.

(** The collectors only form groups of the four styles. *)
Lemma PROPORTIONAL_styles (p family style : string) :
  dict_get PROPORTIONAL p = Some (family, style) → style ∈ STYLES.
Proof.
  intros H%dict_get_elem.
  assert (Forall (λ kv : string * (string * string), kv.2.2 ∈ STYLES) PROPORTIONAL)
    as Hall.
  { apply (bool_decide_unpack _). by vm_compute. }
  rewrite Forall_forall in Hall. apply (Hall _ H).
Qed.

Lemma MISC_MAP_styles (basename family style : string) (px : Z) :
  dict_get MISC_MAP basename = Some (family, style, px) → style ∈ STYLES.
Proof.
  intros H%dict_get_elem.
  assert (Forall (λ kv : string * (string * string * Z), kv.2.1.2 ∈ STYLES) MISC_MAP)
    as Hall.
  { apply (bool_decide_unpack _). by vm_compute. }
  rewrite Forall_forall in Hall. apply (Hall _ H).
Qed.

Lemma classify_proportional_style (basename family style : string) :
  classify_proportional basename = Some (family, style) → style ∈ STYLES.
Proof.
  intros Hcl.
  destruct (classify_proportional_first basename)
    as [(p & fs & _ & _ & Hcl' & Hget & _)|[Hnone _]]; [|congruence].
  rewrite Hcl in Hcl'. injection Hcl' as <-. by eapply PROPORTIONAL_styles.
Qed.

Lemma append_entry_styles (g : groups) (k : string * string) (e : entry) :
  styles_ok g → k.2 ∈ STYLES → styles_ok (append_entry g k e).
Proof.
  intros Hg Hk k' l. unfold append_entry. rewrite lookup_insert.
  case_decide as Hkk; [|apply Hg]. by rewrite <-Hkk.
Qed.

Lemma collect_proportional_dir_styles (tmp dpi : string) (files : list pcf_file)
    (g g' : groups) :
  styles_ok g → collect_proportional_dir tmp dpi files g = Ok g' → styles_ok g'.
Proof.
  revert g. induction files as [|f rest IH]; intros g Hg.
  - by intros [= <-].
  - rewrite collect_proportional_dir_cons.
    destruct (has_charset_marker (basename_of f)); [by apply IH|].
    destruct (classify_proportional (basename_of f)) as [[family style]|] eqn:Hcl;
      [|by apply IH].
    apply classify_proportional_style in Hcl.
    destruct (get_pixel_size (bdf_text f)) as [px|e]; simpl; [|done].
    destruct (0 <? px); [|by apply IH].
    by apply IH, append_entry_styles.
Qed.

Lemma collect_misc_dir_styles (tmp : string) (files : list pcf_file) (g g' : groups) :
  styles_ok g → collect_misc_dir tmp files g = Ok g' → styles_ok g'.
Proof.
  revert g. induction files as [|f rest IH]; intros g Hg.
  - by intros [= <-].
  - rewrite collect_misc_dir_cons.
    destruct (has_charset_marker (basename_of f)); [by apply IH|].
    destruct (existsb (PyStr.startswith (basename_of f)) MISC_SKIP_PREFIXES);
      [by apply IH|].
    destruct (dict_get MISC_MAP (basename_of f)) as [[[family style] px0]|] eqn:Hmap;
      [|by apply IH].
    apply MISC_MAP_styles in Hmap.
    destruct (get_pixel_size (bdf_text f)) as [px|e]; simpl; [|done].
    by apply IH, append_entry_styles.
Qed.

Lemma collected_styles (tmp : string) (dir75 dir100 dir_misc : font_dir)
    (prop_groups misc_groups : groups) (key : string * string)
    (entries : list entry) :
  collect_proportional_fonts tmp dir75 dir100 = Ok prop_groups →
  collect_misc_fonts tmp dir_misc = Ok misc_groups →
  merge_groups prop_groups misc_groups !! key = Some entries →
  key.2 ∈ STYLES.
Proof.
  intros Hprop Hmisc. rewrite merge_groups_lookup.
  assert (styles_ok ∅) as Hempty by (intros k l; by rewrite lookup_empty).
  assert (styles_ok misc_groups) as Hm.
  { destruct dir_misc as [files|]; simpl in Hmisc.
    - eapply collect_misc_dir_styles; [|exact Hmisc]. exact Hempty.
    - by injection Hmisc as <-. }
  assert (styles_ok prop_groups) as Hp.
  { unfold collect_proportional_fonts in Hprop.
    apply bind_Ok in Hprop as (g75 & H75 & H100).
    assert (styles_ok g75).
    { destruct dir75 as [files|].
      - eapply collect_proportional_dir_styles; [|exact H75]. exact Hempty.
      - by injection H75 as <-. }
    destruct dir100 as [files|].
    - eapply collect_proportional_dir_styles; [|exact H100]. done.
    - by injection H100 as <-. }
  destruct (misc_groups !! key) as [l|] eqn:E.
  - intros _. by apply (Hm key l).
  - apply Hp.
Qed.

(** Claim C2.  For every group that the collectors hand to the build
    (it is never empty and holds no pixel size 0), the entries kept after
    sorting and deduplication have strictly increasing, positive pixel
    sizes; the first kept entry's pixel size is at most, the last kept
    entry's at least every member's; and an entry is kept exactly when it
    is the first of the group with its pixel size. *)
Theorem build_group_sorted_unique (tmp : string) (dir75 dir100 dir_misc : font_dir)
    (prop_groups misc_groups : groups) (key : string * string)
    (entries : list entry) :
  collect_proportional_fonts tmp dir75 dir100 = Ok prop_groups →
  collect_misc_fonts tmp dir_misc = Ok misc_groups →
  merge_groups prop_groups misc_groups !! key = Some entries →
  entries ≠ []
  ∧ Forall (λ e : entry, 0 < e.1) entries
  ∧ StronglySorted (λ a b : entry, a.1 < b.1) (sort_dedup entries)
  ∧ Forall (λ e : entry, 0 < e.1) (sort_dedup entries)
  ∧ (∃ first final,
       head (sort_dedup entries) = Some first
       ∧ last (sort_dedup entries) = Some final
       ∧ ∀ m, m ∈ entries → first.1 ≤ m.1 ≤ final.1)
  ∧ (∀ e, e ∈ sort_dedup entries ↔
          e ∈ entries ∧ head (filter (λ x, x.1 = e.1) entries) = Some e).
Proof.
  intros Hprop Hmisc Hkey.
  destruct (merge_groups_ok prop_groups misc_groups) with (k := key) (l := entries)
    as [Hne Hpos]; [by eapply collect_proportional_fonts_ok
                   |by eapply collect_misc_fonts_ok|done|].
  split_and!; [done|done|apply sort_dedup_strict| | |apply sort_dedup_elem].
  - apply Forall_forall. intros e [He _]%sort_dedup_elem.
    rewrite Forall_forall in Hpos. by apply Hpos.
  - pose proof (sort_dedup_nonempty entries Hne) as Hne'.
    destruct (head (sort_dedup entries)) as [first|] eqn:Hh;
      [|by apply head_None in Hh].
    destruct (last (sort_dedup entries)) as [final|] eqn:Hl;
      [|by apply last_None in Hl].
    exists first, final. split_and!; [done..|].
    intros m Hm. by eapply sort_dedup_bounds.
Qed.

(** Claim C3.  Sorting ascending and keeping the first entry of each pixel
    size is idempotent: applied to its own result it returns that result,
    so a group with repeated pixel sizes and its deduplicated, sorted list
    give the same build group. *)
Theorem sort_dedup_idempotent (bdf_entries : list entry) :
  sort_dedup (sort_dedup bdf_entries) = sort_dedup bdf_entries.
Proof. apply sort_dedup_fixed, sort_dedup_strict. Qed.

(** ** Pixel-size resolver *)

Lemma scan_pixel_size_cons (line : string) (rest : list string) :
  scan_pixel_size (line :: rest) =
    if PyStr.startswith line "PIXEL_SIZE " then parse_pixel_size_line line
    else if PyStr.startswith line "STARTCHAR" then Ok 0
    else scan_pixel_size rest.
Proof. reflexivity. Qed.

Lemma scan_pixel_size_plain (pre rest : list string) :
  Forall plain_line pre → scan_pixel_size (pre ++ rest) = scan_pixel_size rest.
Proof.
  induction 1 as [|l pre [Hp Hs] _ IH]; [done|].
  rewrite <-app_comm_cons, scan_pixel_size_cons. by rewrite Hp, Hs.
Qed.

Lemma startchar_not_pixel_size (line : string) :
  PyStr.startswith line "STARTCHAR" = true →
  PyStr.startswith line "PIXEL_SIZE " = false.
Proof. intros [t ->]%startswith_app. reflexivity. Qed.

Lemma scan_pixel_size_no_declaration (lines : list string) :
  Forall (λ l, PyStr.startswith l "PIXEL_SIZE " = false) lines →
  scan_pixel_size lines = Ok 0.
Proof.
  induction 1 as [|l lines Hp _ IH]; [done|].
  rewrite scan_pixel_size_cons, Hp. by destruct (PyStr.startswith l "STARTCHAR").
Qed.

(** The scan either stops at the first declaration of the pixel size that
    only plain lines precede, or finds no such line and gives 0. *)
Lemma scan_pixel_size_cases (lines : list string) :
  (∃ pre line post,
      lines = pre ++ line :: post ∧ Forall plain_line pre
      ∧ PyStr.startswith line "PIXEL_SIZE " = true
      ∧ scan_pixel_size lines = parse_pixel_size_line line)
  ∨ ((∀ pre line post,
        lines = pre ++ line :: post → Forall plain_line pre →
        PyStr.startswith line "PIXEL_SIZE " = false)
     ∧ scan_pixel_size lines = Ok 0).
Proof.
  induction lines as [|l lines IH].
  - right. split; [|done]. intros [|??] ?? [=].
  - rewrite scan_pixel_size_cons.
    destruct (PyStr.startswith l "PIXEL_SIZE ") eqn:Hp.
    { left. exists [], l, lines. by split_and!. }
    destruct (PyStr.startswith l "STARTCHAR") eqn:Hs.
    { right. split; [|done]. intros [|l' pre] line post [= -> ->] Hpre; [done|].
      apply Forall_cons in Hpre as [[_ ?] _]. congruence. }
    destruct IH as [(pre & line & post & -> & Hpre & Hline & Hscan)|[Hnone Hscan]].
    + left. exists (l :: pre), line, post. split_and!; try done.
      constructor; [by split|done].
    + right. split; [|done]. intros [|l' pre] line post [= -> ->] Hpre; [done|].
      apply Forall_cons in Hpre as [_ Hpre]. by eapply Hnone.
Qed.

(** Claim C4.  The resolver scans the lines in order up to the line that
    starts the glyph data (STARTCHAR): when a line declaring PIXEL_SIZE
    comes first, it returns the integer value of that line; when the
    STARTCHAR line comes first, or no line declares PIXEL_SIZE, it returns
    0.  In the misc collector a resolved value (> 0) takes the place of
    the size of the static table, and an unresolved one (0) leaves the
    table's size. *)
Theorem get_pixel_size_scan (text : string) :
  (∀ pre line post tok n,
     readlines text = pre ++ line :: post → Forall plain_line pre →
     PyStr.startswith line "PIXEL_SIZE " = true →
     split line !! 1%nat = Some tok → py_int tok = Ok n →
     get_pixel_size (Some text) = Ok n)
  ∧ (∀ pre line post,
     readlines text = pre ++ line :: post → Forall plain_line pre →
     PyStr.startswith line "STARTCHAR" = true →
     get_pixel_size (Some text) = Ok 0)
  ∧ (Forall (λ l, PyStr.startswith l "PIXEL_SIZE " = false) (readlines text) →
     get_pixel_size (Some text) = Ok 0)
  ∧ (∀ tmp name rest g family style px actual_px,
     let f := PcfFile name (Some text) in
     has_charset_marker (basename_of f) = false →
     existsb (PyStr.startswith (basename_of f)) MISC_SKIP_PREFIXES = false →
     dict_get MISC_MAP (basename_of f) = Some (family, style, px) →
     get_pixel_size (Some text) = Ok actual_px →
     let bdf_path :=
       path_join tmp (String.append "misc_" (String.append (basename_of f) ".bdf")) in
     (0 < actual_px →
      collect_misc_dir tmp (f :: rest) g =
        collect_misc_dir tmp rest (append_entry g (family, style) (actual_px, bdf_path)))
     ∧ (actual_px = 0 →
      collect_misc_dir tmp (f :: rest) g =
        collect_misc_dir tmp rest (append_entry g (family, style) (px, bdf_path)))).
Proof.
  split_and!.
  - intros pre line post tok n Hlines Hpre Hline Htok Hint. simpl.
    rewrite Hlines, scan_pixel_size_plain, scan_pixel_size_cons, Hline by done.
    unfold parse_pixel_size_line. by rewrite Htok.
  - intros pre line post Hlines Hpre Hline. simpl.
    rewrite Hlines, scan_pixel_size_plain, scan_pixel_size_cons, Hline by done.
    by rewrite (startchar_not_pixel_size line Hline).
  - intros Hall. simpl. by apply scan_pixel_size_no_declaration.
  - intros tmp name rest g family style px actual_px f Hmark Hskip Hmap Hpx bdf_path.
    rewrite collect_misc_dir_cons, Hmark, Hskip, Hmap.
    change (bdf_text f) with (Some text). rewrite Hpx.
    split.
    + intros Hpos. simpl. by rewrite (proj2 (Z.ltb_lt 0 actual_px) Hpos).
    + intros ->. done.
Qed.

(** Claim C5, as the code has it: a header can make the resolver raise.
    A PIXEL_SIZE line whose value is not a number raises [ValueError], one
    without a value raises [IndexError]. *)
Lemma get_pixel_size_raises :
  get_pixel_size (Some "PIXEL_SIZE abc") = Raise ValueError
  ∧ get_pixel_size (Some "PIXEL_SIZE ") = Raise IndexError
  ∧ ¬ (∀ text, ∃ n, get_pixel_size (Some text) = Ok n).
Proof.
  split_and!; [done..|]. intros H. by destruct (H "PIXEL_SIZE abc") as [n [=]].
Qed.

(** Claim C5, amended.  The resolver returns an integer exactly when every
    PIXEL_SIZE line that only plain header lines precede carries an integer
    as its second field; empty and truncated headers without such a line
    give 0, and the integer returned is otherwise the value of that line. *)
Theorem get_pixel_size_returns (text : string) :
  ((∃ n, get_pixel_size (Some text) = Ok n) ↔
   (∀ pre line post,
      readlines text = pre ++ line :: post → Forall plain_line pre →
      PyStr.startswith line "PIXEL_SIZE " = true →
      ∃ tok n, split line !! 1%nat = Some tok ∧ py_int tok = Ok n))
  ∧ ((∀ pre line post,
        readlines text = pre ++ line :: post → Forall plain_line pre →
        PyStr.startswith line "PIXEL_SIZE " = false) →
     get_pixel_size (Some text) = Ok 0)
  ∧ get_pixel_size (Some "") = Ok 0.
Proof.
  split_and!; [split| |done].
  - intros [n Hn] pre line post Hlines Hpre Hline. simpl in Hn.
    rewrite Hlines, scan_pixel_size_plain, scan_pixel_size_cons, Hline in Hn by done.
    unfold parse_pixel_size_line in Hn.
    destruct (split line !! 1%nat) as [tok|]; [eauto|done].
  - intros Hok. simpl.
    destruct (scan_pixel_size_cases (readlines text))
      as [(pre & line & post & Hlines & Hpre & Hline & Hscan)|[_ Hscan]]; [|eauto].
    destruct (Hok pre line post Hlines Hpre Hline) as (tok & n & Htok & Hint).
    exists n. rewrite Hscan. unfold parse_pixel_size_line. by rewrite Htok.
  - intros Hnone. simpl.
    destruct (scan_pixel_size_cases (readlines text))
      as [(pre & line & post & Hlines & Hpre & Hline & Hscan)|[_ Hscan]]; [|done].
    rewrite (Hnone pre line post Hlines Hpre) in Hline. done.
Qed.

(** ** Rounding of advance widths *)

Lemma round_div_multiple (k s : Z) : s ≠ 0 → round_div (k * s) s = k.
Proof.
  intros Hs. unfold round_div.
  rewrite Z.mod_mul, Z.div_mul by done. cbv zeta.
  assert ((2 * Z.abs 0 <? Z.abs s) = true) as -> by lia. done.
Qed.

Lemma round_width_multiple (scale w : Z) : ∃ k, round_width scale w = k * scale.
Proof. by exists (round_div w scale). Qed.

Lemma round_width_stable (scale w : Z) :
  scale ≠ 0 → round_width scale (round_width scale w) = round_width scale w.
Proof.
  intros Hs. unfold round_width. by rewrite round_div_multiple.
Qed.

Lemma round_width_nearest (scale w m : Z) :
  0 < scale → Z.abs (round_width scale w - w) ≤ Z.abs (m * scale - w).
Proof.
  intros Hs. unfold round_width, round_div.
  pose proof (Z.div_mod w scale ltac:(lia)) as Hdm.
  pose proof (Z.mod_pos_bound w scale Hs) as Hr.
  set (q := w / scale) in *. set (r := w mod scale) in *.
  rewrite (Z.abs_eq r), (Z.abs_eq scale) by lia.
  assert (m ≤ q ∨ q + 1 ≤ m) as Hm by lia.
  destruct (2 * r <? scale) eqn:E1; [|destruct (scale <? 2 * r) eqn:E2;
    [|destruct (Z.even q)]]; destruct Hm; nia.
Qed.

(** ** Building a font, and the run *)

Lemma floordiv_em (largest_px scale : Z) :
  floordiv (largest_px * 100) largest_px = Ok scale →
  largest_px ≠ 0 ∧ scale = 100 ∧ largest_px * 100 / largest_px = 100.
Proof.
  unfold floordiv. destruct (largest_px =? 0) eqn:E; [done|].
  intros [= <-]. assert (largest_px ≠ 0) by lia.
  rewrite Z.mul_comm, Z.div_mul by done. done.
Qed.

Section HostFacts.
Variable extract_bdf_metadata : string → result metadata.
Variable host_trace : list entry → Z → result (list Z).
Variable host_generate : string → font → result ().

(** What a successful build has done. *)
Lemma build_font_Some (family style : string) (bdf_entries : list entry)
    (ttf_name : string) (f : font) :
  build_font extract_bdf_metadata host_trace host_generate
    family style bdf_entries = Ok (Some (ttf_name, f)) →
  ∃ smallest_bdf largest_px largest_bdf traced,
    (∃ smallest_px, head (sort_dedup bdf_entries) = Some (smallest_px, smallest_bdf))
    ∧ last (sort_dedup bdf_entries) = Some (largest_px, largest_bdf)
    ∧ largest_px ≠ 0
    ∧ host_trace (sort_dedup bdf_entries) (largest_px * 100) = Ok traced
    ∧ em f = largest_px * 100
    ∧ widths f = round_width (em f / largest_px) <$> traced
    ∧ em f / largest_px = 100
    ∧ os2_weight f = (if PyStr.contains "Bold" style then 700 else 400)
    ∧ sfnt_names f =
        [ ("English (US)", "Family", family);
          ("English (US)", "SubFamily", subfamily_of style);
          ("English (US)", "Fullname", String.append family (String.append " " style));
          ("English (US)", "PostScriptName",
             String.append family (String.append "-" style)) ]
    ∧ ttf_name = String.append family (String.append "-" (String.append style ".ttf")).
Proof.
  unfold build_font. destruct bdf_entries as [|e0 t]; [done|].
  generalize (sort_dedup (e0 :: t)). intros l.
  destruct (head l) as [[smallest_px smallest_bdf]|]; [|done].
  destruct (last l) as [[largest_px largest_bdf]|]; [|done].
  intros (meta & Hmeta & H)%bind_Ok.
  apply bind_Ok in H as (traced & Htraced & H).
  apply bind_Ok in H as (scale & Hscale & H).
  apply bind_Ok in H as ([] & Hgen & H).
  apply floordiv_em in Hscale as (Hne & -> & Hdiv).
  injection H as <- <-. simpl.
  exists smallest_bdf, largest_px, largest_bdf, traced.
  rewrite Hdiv. split_and!; eauto.
Qed.

(** Claim C6.  The em value of a built font is the largest pixel size of
    the group times 100; every advance width is a multiple of
    em / largest pixel size that is nearest to the traced width; and
    rounding a rounded width again changes nothing. *)
Theorem build_font_em_widths (family style : string) (bdf_entries : list entry)
    (ttf_name : string) (f : font) :
  build_font extract_bdf_metadata host_trace host_generate
    family style bdf_entries = Ok (Some (ttf_name, f)) →
  ∃ largest_px largest_bdf traced,
    last (sort_dedup bdf_entries) = Some (largest_px, largest_bdf)
    ∧ (∀ m, m ∈ bdf_entries → m.1 ≤ largest_px)
    ∧ em f = largest_px * 100
    ∧ host_trace (sort_dedup bdf_entries) (em f) = Ok traced
    ∧ Forall2 (λ w w',
         w' = round_width (em f / largest_px) w
         ∧ (∃ k, w' = k * (em f / largest_px))
         ∧ (∀ k, Z.abs (w' - w) ≤ Z.abs (k * (em f / largest_px) - w))
         ∧ round_width (em f / largest_px) w' = w')
       traced (widths f).
Proof.
  intros (smallest_bdf & largest_px & largest_bdf & traced & [smallest_px Hhead]
          & Hlast & Hne & Htraced & Hem & Hwidths & Hscale & _)%build_font_Some.
  exists largest_px, largest_bdf, traced. split_and!; try done.
  - intros m Hm.
    by destruct (sort_dedup_bounds bdf_entries _ _ m Hhead Hlast Hm).
  - by rewrite Hem.
  - rewrite Hwidths, Hscale. apply Forall2_fmap_r, Forall_Forall2_diag, Forall_forall.
    intros w _. split_and!.
    + done.
    + apply round_width_multiple.
    + intros k. by apply round_width_nearest.
    + by apply round_width_stable.
Qed.

(** Claim C9.  The weight class of a built font is 700 exactly when its
    style contains "Bold" (the styles Bold and BoldOblique) and 400
    otherwise, and the sub-family entry of its naming table is the style
    with "Oblique" renamed to "Italic" and "BoldOblique" to "Bold Italic",
    Regular and Bold being left as they are. *)
Theorem build_font_weight_subfamily (family style : string)
    (bdf_entries : list entry) (ttf_name : string) (f : font) :
  build_font extract_bdf_metadata host_trace host_generate
    family style bdf_entries = Ok (Some (ttf_name, f)) →
  (os2_weight f = 700 ↔ PyStr.contains "Bold" style = true)
  ∧ (os2_weight f = 400 ↔ PyStr.contains "Bold" style = false)
  ∧ (∀ name, ("English (US)", "SubFamily", name) ∈ sfnt_names f ↔
             name = PyStr.replace (PyStr.replace style "Oblique" "Italic")
                                  "BoldItalic" "Bold Italic")
  ∧ (style = "Regular" →
     os2_weight f = 400 ∧ ("English (US)", "SubFamily", "Regular") ∈ sfnt_names f)
  ∧ (style = "Bold" →
     os2_weight f = 700 ∧ ("English (US)", "SubFamily", "Bold") ∈ sfnt_names f)
  ∧ (style = "Oblique" →
     os2_weight f = 400 ∧ ("English (US)", "SubFamily", "Italic") ∈ sfnt_names f)
  ∧ (style = "BoldOblique" →
     os2_weight f = 700 ∧ ("English (US)", "SubFamily", "Bold Italic") ∈ sfnt_names f).
Proof.
  intros (_ & _ & _ & _ & _ & _ & _ & _ & _ & _ & _ & Hweight & Hnames & _)%build_font_Some.
  assert (∀ name, ("English (US)", "SubFamily", name) ∈ sfnt_names f ↔
                  name = subfamily_of style) as Hsub.
  { intros name. rewrite Hnames, !elem_of_cons, elem_of_nil. split.
    - intros [[=]|[[= ->]|[[=]|[[=]|[]]]]]. done.
    - intros ->. by right; left. }
  split_and!.
  - rewrite Hweight. by destruct (PyStr.contains "Bold" style).
  - rewrite Hweight. by destruct (PyStr.contains "Bold" style).
  - apply Hsub.
  - intros ->. split; [by rewrite Hweight|by apply Hsub].
  - intros ->. split; [by rewrite Hweight|by apply Hsub].
  - intros ->. split; [by rewrite Hweight|by apply Hsub].
  - intros ->. split; [by rewrite Hweight|by apply Hsub].
Qed.

Lemma build_all_flat (items : list ((string * string) * list entry))
    (results : list string) (out : list event) :
  build_all extract_bdf_metadata host_trace host_generate items results out =
    (results ++ omap (built_name extract_bdf_metadata host_trace host_generate) items, out ++ concat (group_events extract_bdf_metadata host_trace host_generate <$> items)).
Proof.
  revert results out. induction items as [|[[family style] entries] rest IH];
    intros results out.
  - simpl. by rewrite !app_nil_r.
  - cbn [build_all omap list_omap fmap list_fmap concat].
    unfold built_name, group_events at 1. cbn [fst snd].
    destruct (build_font _ _ _ family style entries) as [[[ttf_name f]|]|e];
      rewrite IH; f_equal; by rewrite <-?app_assoc.
Qed.

(** Claim C8.  An exception raised while one group is built is caught at
    that group: the error is printed, the group adds nothing to the
    results, and the loop goes on with all remaining groups; the run
    itself returns whatever the builds do. *)
Theorem build_all_isolates_failures
    (items : list ((string * string) * list entry))
    (results : list string) (out : list event) :
  build_all extract_bdf_metadata host_trace host_generate items results out =
    (results ++ omap (built_name extract_bdf_metadata host_trace host_generate) items, out ++ concat (group_events extract_bdf_metadata host_trace host_generate <$> items))
  ∧ (∀ before item after e,
       items = before ++ item :: after →
       build_font extract_bdf_metadata host_trace host_generate
         item.1.1 item.1.2 item.2 = Raise e →
       let done_before :=
         build_all extract_bdf_metadata host_trace host_generate before results out in
       build_all extract_bdf_metadata host_trace host_generate items results out =
         build_all extract_bdf_metadata host_trace host_generate after
           done_before.1
           (done_before.2
              ++ [GroupHeader item.1.1 item.1.2 (length item.2) (sizes_of item.2);
                  Error e]))
  ∧ (∀ tmp dir75 dir100 dir_misc prop_groups misc_groups,
       collect_proportional_fonts tmp dir75 dir100 = Ok prop_groups →
       collect_misc_fonts tmp dir_misc = Ok misc_groups →
       main extract_bdf_metadata host_trace host_generate tmp dir75 dir100 dir_misc =
         Ok (omap (built_name extract_bdf_metadata host_trace host_generate) (sorted_items (merge_groups prop_groups misc_groups)),
             concat (group_events extract_bdf_metadata host_trace host_generate <$> sorted_items (merge_groups prop_groups misc_groups)))).
Proof.
  split_and!.
  - apply build_all_flat.
  - intros before item after e -> Hraise done_before. subst done_before.
    rewrite !build_all_flat. simpl.
    rewrite omap_app, fmap_app, concat_app. simpl.
    unfold built_name at 2, group_events at 2. rewrite Hraise. simpl.
    f_equal; by rewrite <-?app_assoc.
  - intros tmp dir75 dir100 dir_misc prop_groups misc_groups Hprop Hmisc.
    unfold main. rewrite Hprop, Hmisc. simpl. by rewrite build_all_flat.
Qed.

(** A file whose basename holds a character-set marker is passed over. *)
Lemma collect_proportional_dir_marker (tmp dpi : string) (f : pcf_file)
    (before after : list pcf_file) (g : groups) :
  has_charset_marker (basename_of f) = true →
  collect_proportional_dir tmp dpi (before ++ f :: after) g =
    collect_proportional_dir tmp dpi (before ++ after) g.
Proof.
  intros Hf. revert g. induction before as [|f' before IH]; intros g.
  - simpl app. by rewrite collect_proportional_dir_cons, Hf.
  - rewrite <-!app_comm_cons, !collect_proportional_dir_cons.
    destruct (has_charset_marker (basename_of f')); [apply IH|].
    destruct (classify_proportional (basename_of f')) as [[family style]|];
      [|apply IH].
    destruct (get_pixel_size (bdf_text f')) as [px|e]; simpl; [|done].
    destruct (0 <? px); apply IH.
Qed.

Lemma collect_misc_dir_marker (tmp : string) (f : pcf_file)
    (before after : list pcf_file) (g : groups) :
  has_charset_marker (basename_of f) = true →
  collect_misc_dir tmp (before ++ f :: after) g =
    collect_misc_dir tmp (before ++ after) g.
Proof.
  intros Hf. revert g. induction before as [|f' before IH]; intros g.
  - simpl app. by rewrite collect_misc_dir_cons, Hf.
  - rewrite <-!app_comm_cons, !collect_misc_dir_cons.
    destruct (has_charset_marker (basename_of f')); [apply IH|].
    destruct (existsb (PyStr.startswith (basename_of f')) MISC_SKIP_PREFIXES);
      [apply IH|].
    destruct (dict_get MISC_MAP (basename_of f')) as [[[family style] px0]|];
      [|apply IH].
    destruct (get_pixel_size (bdf_text f')) as [px|e]; simpl; [|done].
    apply IH.
Qed.

(** Claim C7.  A file whose basename contains one of the character-set
    markers (-ISO8859, -KOI8, -JISX) is passed over by both collectors
    before any classification, whatever prefix or table entry it would
    match: the groups, and with them the fonts of the run, are those
    obtained without the file. *)
Theorem charset_marker_excluded (tmp : string) (f : pcf_file)
    (before after : list pcf_file) :
  PyStr.contains "-ISO8859" (basename_of f) = true
  ∨ PyStr.contains "-KOI8" (basename_of f) = true
  ∨ PyStr.contains "-JISX" (basename_of f) = true →
  (∀ dir100, collect_proportional_fonts tmp (Some (before ++ f :: after)) dir100 =
             collect_proportional_fonts tmp (Some (before ++ after)) dir100)
  ∧ (∀ dir75, collect_proportional_fonts tmp dir75 (Some (before ++ f :: after)) =
              collect_proportional_fonts tmp dir75 (Some (before ++ after)))
  ∧ collect_misc_fonts tmp (Some (before ++ f :: after)) =
      collect_misc_fonts tmp (Some (before ++ after))
  ∧ (∀ dir75 dir100 dir_misc,
       main extract_bdf_metadata host_trace host_generate tmp
         (Some (before ++ f :: after)) dir100 dir_misc =
       main extract_bdf_metadata host_trace host_generate tmp
         (Some (before ++ after)) dir100 dir_misc
       ∧ main extract_bdf_metadata host_trace host_generate tmp
           dir75 (Some (before ++ f :: after)) dir_misc =
         main extract_bdf_metadata host_trace host_generate tmp
           dir75 (Some (before ++ after)) dir_misc
       ∧ main extract_bdf_metadata host_trace host_generate tmp
           dir75 dir100 (Some (before ++ f :: after)) =
         main extract_bdf_metadata host_trace host_generate tmp
           dir75 dir100 (Some (before ++ after))).
Proof.
  intros Hmarker.
  assert (has_charset_marker (basename_of f) = true) as Hf.
  { unfold has_charset_marker. destruct Hmarker as [-> | [-> | ->]];
      by rewrite ?orb_true_r. }
  assert (∀ dir100,
    collect_proportional_fonts tmp (Some (before ++ f :: after)) dir100 =
    collect_proportional_fonts tmp (Some (before ++ after)) dir100) as H75.
  { intros dir100. unfold collect_proportional_fonts.
    by rewrite collect_proportional_dir_marker. }
  assert (∀ dir75,
    collect_proportional_fonts tmp dir75 (Some (before ++ f :: after)) =
    collect_proportional_fonts tmp dir75 (Some (before ++ after))) as H100.
  { intros dir75. unfold collect_proportional_fonts.
    destruct (match dir75 with
              | Some files => collect_proportional_dir tmp "75" files ∅
              | None => Ok ∅
              end) as [g|e]; simpl; [|done].
    by rewrite collect_proportional_dir_marker. }
  assert (collect_misc_fonts tmp (Some (before ++ f :: after)) =
          collect_misc_fonts tmp (Some (before ++ after))) as Hmisc.
  { unfold collect_misc_fonts. by rewrite collect_misc_dir_marker. }
  split_and!; try done.
  intros dir75 dir100 dir_misc. unfold main. by rewrite H75, H100, Hmisc.
Qed.

End HostFacts.

(** Claim C10.  When both collectors hold a group under one key, the
    merged dict holds the misc group alone under that key: it is the list
    that is built, the proportional entries being neither built nor added
    to it; a proportional group is built only under a key that the misc
    collection does not have. *)
Theorem merge_groups_misc_wins (prop_groups misc_groups : groups)
    (key : string * string) (prop_entries misc_entries : list entry) :
  prop_groups !! key = Some prop_entries →
  misc_groups !! key = Some misc_entries →
  merge_groups prop_groups misc_groups !! key = Some misc_entries
  ∧ (∀ entries,
       (key, entries) ∈ sorted_items (merge_groups prop_groups misc_groups) ↔
       entries = misc_entries)
  ∧ (∀ key' entries,
       (key', entries) ∈ sorted_items (merge_groups prop_groups misc_groups) ↔
       misc_groups !! key' = Some entries
       ∨ (misc_groups !! key' = None ∧ prop_groups !! key' = Some entries)).
Proof.
  intros Hprop Hmisc.
  assert (∀ key' entries,
    (key', entries) ∈ sorted_items (merge_groups prop_groups misc_groups) ↔
    merge_groups prop_groups misc_groups !! key' = Some entries) as Hitems.
  { intros key' entries. unfold sorted_items.
    by rewrite elem_of_stable_sort, elem_of_map_to_list. }
  split_and!.
  - by rewrite merge_groups_lookup, Hmisc.
  - intros entries. rewrite Hitems, merge_groups_lookup, Hmisc.
    split; [by intros [= ->]|by intros ->].
  - intros key' entries. rewrite Hitems, merge_groups_lookup.
    destruct (misc_groups !! key') as [l|].
    + split; [by left|]. by intros [?|[? _]].
    + split; [by right|]. by intros [?|[_ ?]].
Qed.

(** * The statements on the small run *)

Lemma build_group_sorted_unique_demo :
  collect_proportional_fonts "/tmp/x" (Some demo_75dpi) (Some demo_100dpi)
    = Ok demo_prop_groups
  ∧ merge_groups demo_prop_groups demo_misc_groups !! ("X11Helv", "Regular")
    = Some demo_entries
  ∧ StronglySorted (λ a b : entry, a.1 < b.1) (sort_dedup demo_entries)
  ∧ Forall (λ e : entry, 0 < e.1) (sort_dedup demo_entries)
  ∧ (∀ e, e ∈ sort_dedup demo_entries ↔
          e ∈ demo_entries ∧ head (filter (λ x, x.1 = e.1) demo_entries) = Some e).
Proof.
  assert (collect_proportional_fonts "/tmp/x" (Some demo_75dpi) (Some demo_100dpi)
            = Ok demo_prop_groups) as Hprop by (vm_compute; reflexivity).
  assert (collect_misc_fonts "/tmp/x" (Some demo_misc) = Ok demo_misc_groups)
    as Hmisc by (vm_compute; reflexivity).
  assert (merge_groups demo_prop_groups demo_misc_groups !! ("X11Helv", "Regular")
            = Some demo_entries) as Hkey by (vm_compute; reflexivity).
  destruct (build_group_sorted_unique "/tmp/x" (Some demo_75dpi) (Some demo_100dpi)
              (Some demo_misc) demo_prop_groups demo_misc_groups
              ("X11Helv", "Regular") demo_entries Hprop Hmisc Hkey)
    as (_ & _ & Hsorted & Hpos & _ & Hfirst).
  by split_and!.
Defined.

Example demo_font_widths :
  em demo_font = 1400 ∧ widths demo_font = [500; 600; 600; 600; 0; -200; 1200].
Proof. by vm_compute. Qed.

Lemma build_font_em_widths_demo :
  build_font demo_metadata demo_trace demo_generate
    "X11Helv" "BoldOblique" demo_entries
    = Ok (Some ("X11Helv-BoldOblique.ttf", demo_font))
  ∧ ∃ largest_px largest_bdf traced,
      last (sort_dedup demo_entries) = Some (largest_px, largest_bdf)
      ∧ (∀ m, m ∈ demo_entries → m.1 ≤ largest_px)
      ∧ em demo_font = largest_px * 100
      ∧ demo_trace (sort_dedup demo_entries) (em demo_font) = Ok traced
      ∧ Forall2 (λ w w',
           w' = round_width (em demo_font / largest_px) w
           ∧ (∃ k, w' = k * (em demo_font / largest_px))
           ∧ (∀ k, Z.abs (w' - w) ≤ Z.abs (k * (em demo_font / largest_px) - w))
           ∧ round_width (em demo_font / largest_px) w' = w')
         traced (widths demo_font).
Proof.
  assert (build_font demo_metadata demo_trace demo_generate
            "X11Helv" "BoldOblique" demo_entries
          = Ok (Some ("X11Helv-BoldOblique.ttf", demo_font))) as Hbuild
    by (vm_compute; reflexivity).
  split; [exact Hbuild|].
  exact (build_font_em_widths demo_metadata demo_trace demo_generate
           "X11Helv" "BoldOblique" demo_entries
           "X11Helv-BoldOblique.ttf" demo_font Hbuild).
Defined.

Lemma build_font_weight_subfamily_demo :
  build_font demo_metadata demo_trace demo_generate
    "X11Helv" "BoldOblique" demo_entries
    = Ok (Some ("X11Helv-BoldOblique.ttf", demo_font))
  ∧ os2_weight demo_font = 700
  ∧ ("English (US)", "SubFamily", "Bold Italic") ∈ sfnt_names demo_font.
Proof.
  assert (build_font demo_metadata demo_trace demo_generate
            "X11Helv" "BoldOblique" demo_entries
          = Ok (Some ("X11Helv-BoldOblique.ttf", demo_font))) as Hbuild
    by (vm_compute; reflexivity).
  split; [exact Hbuild|].
  destruct (build_font_weight_subfamily demo_metadata demo_trace demo_generate
              "X11Helv" "BoldOblique" demo_entries
              "X11Helv-BoldOblique.ttf" demo_font Hbuild)
    as (_ & _ & _ & _ & _ & _ & Hbo).
  exact (Hbo eq_refl).
Defined.

Lemma charset_marker_excluded_demo :
  PyStr.contains "-ISO8859"
    (basename_of (PcfFile "helvR12-ISO8859-1.pcf.gz" (Some "PIXEL_SIZE 12"))) = true
  ∧ collect_proportional_fonts "/tmp/x" (Some demo_75dpi) (Some demo_100dpi) =
      collect_proportional_fonts "/tmp/x"
        (Some ([ PcfFile "helvB12.pcf.gz" (Some "PIXEL_SIZE 12");
                 PcfFile "helvR10.pcf.gz" (Some "FONT helv
PIXEL_SIZE 10
STARTCHAR space
") ] ++ [ PcfFile "helvR12.pcf.gz" (Some "PIXEL_SIZE 10") ]))
        (Some demo_100dpi).
Proof.
  assert (PyStr.contains "-ISO8859"
            (basename_of (PcfFile "helvR12-ISO8859-1.pcf.gz" (Some "PIXEL_SIZE 12")))
          = true) as Hmarker by (vm_compute; reflexivity).
  split; [exact Hmarker|].
  destruct (charset_marker_excluded demo_metadata demo_trace demo_generate "/tmp/x"
              (PcfFile "helvR12-ISO8859-1.pcf.gz" (Some "PIXEL_SIZE 12"))
              [ PcfFile "helvB12.pcf.gz" (Some "PIXEL_SIZE 12");
                PcfFile "helvR10.pcf.gz" (Some "FONT helv
PIXEL_SIZE 10
STARTCHAR space
") ]
              [ PcfFile "helvR12.pcf.gz" (Some "PIXEL_SIZE 10") ]
              (or_introl Hmarker)) as (H75 & _).
  exact (H75 (Some demo_100dpi)).
Defined.

Lemma merge_groups_misc_wins_demo :
  merge_groups {[ ("X11Misc6x", "Regular") := [(12, "/tmp/x/6x12_75dpi.bdf")] ]}
               demo_misc_groups !! ("X11Misc6x", "Regular")
    = Some [(13, "/tmp/x/misc_6x13.bdf")]
  ∧ ∀ entries,
      (("X11Misc6x", "Regular"), entries) ∈
        sorted_items
          (merge_groups
             {[ ("X11Misc6x", "Regular") := [(12, "/tmp/x/6x12_75dpi.bdf")] ]}
             demo_misc_groups)
      ↔ entries = [(13, "/tmp/x/misc_6x13.bdf")].
Proof.
  assert (({[ ("X11Misc6x", "Regular") := [(12, "/tmp/x/6x12_75dpi.bdf")] ]} : groups)
            !! ("X11Misc6x", "Regular") = Some [(12, "/tmp/x/6x12_75dpi.bdf")])
    as Hprop by (vm_compute; reflexivity).
  assert (demo_misc_groups !! ("X11Misc6x", "Regular")
          = Some [(13, "/tmp/x/misc_6x13.bdf")]) as Hmisc by (vm_compute; reflexivity).
  destruct (merge_groups_misc_wins _ _ _ _ _ Hprop Hmisc) as (Hmerge & Hitems & _).
  by split.
Defined.

(** * Scenarios *)

Example classify_examples :
  classify_proportional "helvBO12" = Some ("X11Helv", "BoldOblique")
  ∧ classify_proportional "helvB12" = Some ("X11Helv", "Bold")
  ∧ classify_proportional "termB14" = Some ("X11Term", "Bold")
  ∧ classify_proportional "term14" = Some ("X11Term", "Regular")
  ∧ classify_proportional "lubBI19" = Some ("X11LuSans", "BoldOblique")
  ∧ classify_proportional "courR12" = None.
Proof. by vm_compute. Qed.

Example get_pixel_size_examples :
  get_pixel_size (Some "FONT -adobe-helvetica
PIXEL_SIZE 12
STARTCHAR space
") = Ok 12
  ∧ get_pixel_size (Some "FONT -adobe-helvetica
STARTCHAR space
PIXEL_SIZE 12
") = Ok 0
  ∧ get_pixel_size (Some "") = Ok 0
  ∧ get_pixel_size (Some "PIXEL_SIZE -3") = Ok (-3)
  ∧ get_pixel_size (Some "PIXEL_SIZE 1_0") = Ok 10
  ∧ get_pixel_size (Some "PIXEL_SIZE 12 px") = Ok 12
  ∧ get_pixel_size (Some "PIXEL_SIZE twelve") = Raise ValueError
  ∧ get_pixel_size None = Raise OSError.
Proof. by vm_compute. Qed.

Example sort_dedup_example :
  sort_dedup demo_entries =
    [ (8, "/tmp/x/helvR08_100dpi.bdf"); (10, "/tmp/x/helvR10_75dpi.bdf");
      (14, "/tmp/x/helvR10_100dpi.bdf") ].
Proof. by vm_compute. Qed.

(** Two proportional files of different styles give two groups of one
    strike each. *)
Example helv_scenario :
  match collect_proportional_fonts "/tmp/x"
          (Some [ PcfFile "helvB12.pcf.gz" (Some "PIXEL_SIZE 12");
                  PcfFile "helvR10.pcf.gz" (Some "PIXEL_SIZE 10") ]) None with
  | Ok g =>
      g !! ("X11Helv", "Regular") = Some [(10, "/tmp/x/helvR10_75dpi.bdf")]
      ∧ g !! ("X11Helv", "Bold") = Some [(12, "/tmp/x/helvB12_75dpi.bdf")]
      ∧ size g = 2%nat
  | Raise _ => False
  end.
Proof. vm_compute. by split_and!. Qed.

(** The misc files 6x13 and 6x13B form a group each, the second with the
    size of the table as its header declares none; cursor is skipped. *)
Example misc_scenario :
  match collect_misc_fonts "/tmp/x" (Some demo_misc) with
  | Ok g =>
      g !! ("X11Misc6x", "Regular") = Some [(13, "/tmp/x/misc_6x13.bdf")]
      ∧ g !! ("X11Misc6x", "Bold") = Some [(13, "/tmp/x/misc_6x13B.bdf")]
      ∧ size g = 2%nat
  | Raise _ => False
  end.
Proof. vm_compute. by split_and!. Qed.

(** A run in which the engine fails on the two groups of two strikes: the
    errors are printed and the other groups are built. *)
Example main_scenario :
  main demo_metadata demo_trace demo_generate "/tmp/x"
    (Some [ PcfFile "helvB12.pcf.gz" (Some "PIXEL_SIZE 12");
            PcfFile "helvR10.pcf.gz" (Some "PIXEL_SIZE 10") ])
    (Some [ PcfFile "helvB12.pcf.gz" (Some "PIXEL_SIZE 17") ])
    (Some demo_misc)
  = Ok ([ "X11Helv-Regular.ttf"; "X11Misc6x-Bold.ttf"; "X11Misc6x-Regular.ttf" ],
        [ GroupHeader "X11Helv" "Bold" 2 [12; 17];
          Error (HostError "trace failed");
          GroupHeader "X11Helv" "Regular" 1 [10];
          Built "X11Helv-Regular.ttf";
          GroupHeader "X11Misc6x" "Bold" 1 [13];
          Built "X11Misc6x-Bold.ttf";
          GroupHeader "X11Misc6x" "Regular" 1 [13];
          Built "X11Misc6x-Regular.ttf" ]).
Proof. by vm_compute. Qed.

(** A malformed header in one file stops the collection, and the run. *)
Example main_malformed_header :
  main demo_metadata demo_trace demo_generate "/tmp/x"
    (Some [ PcfFile "helvR10.pcf.gz" (Some "PIXEL_SIZE ten") ]) None None
  = Raise ValueError.
Proof. by vm_compute. Qed.

(** * Further properties of the code *)

(** ** The classifier and the order of its table *)

Lemma dict_get_Some_iff {V} (d : dict V) (k : string) (v : V) :
  NoDup (dict_keys d) → dict_get d k = Some v ↔ (k, v) ∈ d.
Proof.
  unfold dict_keys. induction d as [|[k' v'] t IH]; simpl; intros Hnd.
  - split; [done|]. by intros ?%elem_of_nil.
  - apply NoDup_cons in Hnd as [Hk' Hnd].
    destruct (String.eqb k' k) eqn:E.
    + apply string_eqb_true in E as ->. split.
      * intros [= ->]. apply list_elem_of_here.
      * intros [[= ->]|Hin]%elem_of_cons; [done|].
        destruct Hk'. apply list_elem_of_fmap. by exists (k, v).
    + rewrite IH by done. split.
      * intros ?. by apply list_elem_of_further.
      * intros [[= -> ->]|Hin]%elem_of_cons; [|done].
        by rewrite String.eqb_refl in E.
Qed.

Lemma dict_get_perm {V} (d d' : dict V) (k : string) :
  NoDup (dict_keys d) → d' ≡ₚ d → dict_get d' k = dict_get d k.
Proof.
  intros Hnd Hperm.
  assert (NoDup (dict_keys d')) as Hnd'.
  { unfold dict_keys in *. by rewrite Hperm. }
  apply option_eq. intros v.
  rewrite !dict_get_Some_iff by done. by rewrite Hperm.
Qed.

Lemma classify_loop_in_first (table : dict (string * string)) (L : list string)
    (basename : string) :
  StronglySorted (λ p q : string, len q ≤ len p) L →
  (∃ p, p ∈ L ∧ PyStr.startswith basename p = true
        ∧ classify_loop_in table L basename = dict_get table p
        ∧ ∀ q, q ∈ L → PyStr.startswith basename q = true → len q ≤ len p)
  ∨ (classify_loop_in table L basename = None
     ∧ ∀ q, q ∈ L → PyStr.startswith basename q = false).
Proof.
  induction 1 as [|p t Hs IH Hp]; simpl.
  - right. split; [done|]. by intros q ?%elem_of_nil.
  - destruct (PyStr.startswith basename p) eqn:E.
    + left. exists p. split_and!; [apply list_elem_of_here|done|done|].
      intros q [->|Hq]%elem_of_cons _; [lia|].
      rewrite Forall_forall in Hp. by apply Hp.
    + destruct IH as [(p0 & Hin & Hsw & Hcl & Hmax)|[Hnone Hall]].
      * left. exists p0. split_and!; [by apply list_elem_of_further|done|done|].
        intros q [->|Hq]%elem_of_cons Hq'; [congruence|]. by apply Hmax.
      * right. split; [done|]. intros q [->|Hq]%elem_of_cons; auto.
Qed.

Lemma PROPORTIONAL_keys_NoDup : NoDup (dict_keys PROPORTIONAL).
Proof. apply (bool_decide_unpack _). by vm_compute. Qed.

(** X1.  The result of the classifier does not depend on the order in
    which the table lists its prefixes: over any rearrangement of
    [PROPORTIONAL] the same search gives what [classify_proportional]
    gives, for every basename. *)
Theorem classify_table_order_irrelevant (table : dict (string * string))
    (basename : string) :
  table ≡ₚ PROPORTIONAL →
  classify_in table basename = classify_proportional basename.
Proof.
  intros Hperm.
  assert (∀ q, q ∈ py_sorted len true (dict_keys table) ↔ q ∈ dict_keys PROPORTIONAL)
    as Hkeys.
  { intros q. rewrite py_sorted_perm. unfold dict_keys. by rewrite Hperm. }
  assert (StronglySorted (λ p q : string, len q ≤ len p)
            (py_sorted len true (dict_keys table))) as Hsorted.
  { eapply StronglySorted_weaken; [|apply py_sorted_sorted].
    intros p q. unfold goes_before. lia. }
  unfold classify_in.
  destruct (classify_loop_in_first table _ basename Hsorted)
    as [(p & Hin & Hsw & Hcl & Hmax)|[Hnone Hall]].
  - rewrite Hcl, (dict_get_perm PROPORTIONAL table) by
      (done || apply PROPORTIONAL_keys_NoDup).
    apply Hkeys in Hin. destruct (dict_get_is_Some _ _ Hin) as [fs Hfs].
    rewrite Hfs. symmetry. apply (classify_proportional_longest basename p fs);
      [done..|].
    intros q Hq. apply Hmax. by apply Hkeys.
  - rewrite Hnone. symmetry.
    destruct (classify_proportional_first basename)
      as [(p & fs & Hin & Hsw & _)|[Hnone' _]]; [|done].
    apply Hkeys in Hin. rewrite (Hall p Hin) in Hsw. done.
Qed.

Lemma classify_table_order_irrelevant_reversed :
  reverse PROPORTIONAL ≡ₚ PROPORTIONAL
  ∧ classify_in (reverse PROPORTIONAL) "termB14" = classify_proportional "termB14".
Proof.
  assert (reverse PROPORTIONAL ≡ₚ PROPORTIONAL) as Hperm by apply reverse_Permutation.
  split; [exact Hperm|].
  exact (classify_table_order_irrelevant (reverse PROPORTIONAL) "termB14" Hperm).
Defined.

(** ** The collectors, file by file *)

(** Equality of two closed terms, by evaluation. *)
Ltac vm_refl :=
  lazymatch goal with
  | |- ?x = ?y => exact (eq_refl y <: x = y)
  end.

Lemma bind_Ok_l {A B} (a : A) (f : A → result B) : Ok a ≫= f = f a.
Proof. reflexivity. Qed.

Lemma bind_Raise_l {A B} (e : exn) (f : A → result B) : Raise e ≫= f = Raise e.
Proof. reflexivity. Qed.

Lemma group_entries_append (g : groups) (key k : string * string) (e : entry) :
  group_entries (append_entry g key e) k =
    group_entries g k ++ (if decide (key = k) then [e] else []).
Proof.
  unfold group_entries, append_entry. rewrite lookup_insert.
  case_decide as Hk; [by subst|]. by rewrite app_nil_r.
Qed.

Lemma collect_proportional_dir_step (tmp dpi : string) (f : pcf_file)
    (rest : list pcf_file) (g : groups) :
  collect_proportional_dir tmp dpi (f :: rest) g =
    match proportional_key f with
    | None => collect_proportional_dir tmp dpi rest g
    | Some key =>
        px ← get_pixel_size (bdf_text f);
        if 0 <? px
        then collect_proportional_dir tmp dpi rest
               (append_entry g key
                  (px, proportional_bdf_path tmp dpi (basename_of f)))
        else collect_proportional_dir tmp dpi rest g
    end.
Proof.
  rewrite collect_proportional_dir_cons. unfold proportional_key.
  destruct (has_charset_marker (basename_of f)); [done|].
  by destruct (classify_proportional (basename_of f)) as [[family style]|].
Qed.

Lemma collect_misc_dir_step (tmp : string) (f : pcf_file)
    (rest : list pcf_file) (g : groups) :
  collect_misc_dir tmp (f :: rest) g =
    match misc_key f with
    | None => collect_misc_dir tmp rest g
    | Some (family, style, px) =>
        actual_px ← get_pixel_size (bdf_text f);
        collect_misc_dir tmp rest
          (append_entry g (family, style)
             (if 0 <? actual_px then actual_px else px,
              misc_bdf_path tmp (basename_of f)))
    end.
Proof.
  rewrite collect_misc_dir_cons. unfold misc_key.
  destruct (has_charset_marker (basename_of f)); [done|].
  destruct (existsb (PyStr.startswith (basename_of f)) MISC_SKIP_PREFIXES); [done|].
  by destruct (dict_get MISC_MAP (basename_of f)) as [[[family style] px]|].
Qed.

Lemma collect_proportional_dir_app (tmp dpi : string) (l1 l2 : list pcf_file)
    (g : groups) :
  collect_proportional_dir tmp dpi (l1 ++ l2) g =
    collect_proportional_dir tmp dpi l1 g ≫= collect_proportional_dir tmp dpi l2.
Proof.
  revert g. induction l1 as [|f l1 IH]; intros g; [done|].
  rewrite <-app_comm_cons, !collect_proportional_dir_step.
  destruct (proportional_key f) as [key|]; [|apply IH].
  destruct (get_pixel_size (bdf_text f)) as [px|e]; simpl; [|done].
  destruct (0 <? px); apply IH.
Qed.

Lemma collect_misc_dir_app (tmp : string) (l1 l2 : list pcf_file) (g : groups) :
  collect_misc_dir tmp (l1 ++ l2) g =
    collect_misc_dir tmp l1 g ≫= collect_misc_dir tmp l2.
Proof.
  revert g. induction l1 as [|f l1 IH]; intros g; [done|].
  rewrite <-app_comm_cons, !collect_misc_dir_step.
  destruct (misc_key f) as [[[family style] px]|]; [|apply IH].
  destruct (get_pixel_size (bdf_text f)) as [apx|e]; simpl; [|done].
  apply IH.
Qed.

(** X2.  A file that the classifier does not know is passed over by the
    proportional collector without its header being read: the groups are
    those obtained without the file, whatever the file holds, also when
    its BDF text is missing or malformed. *)
Theorem unclassified_file_ignored (tmp dpi : string) (f : pcf_file)
    (before after : list pcf_file) (g : groups) :
  classify_proportional (basename_of f) = None →
  collect_proportional_dir tmp dpi (before ++ f :: after) g =
    collect_proportional_dir tmp dpi (before ++ after) g.
Proof.
  intros Hnone.
  rewrite !collect_proportional_dir_app.
  destruct (collect_proportional_dir tmp dpi before g) as [g1|e]; [|done].
  rewrite !bind_Ok_l, collect_proportional_dir_step. unfold proportional_key. rewrite Hnone.
  by destruct (has_charset_marker (basename_of f)).
Qed.

Lemma unclassified_file_ignored_demo :
  classify_proportional (basename_of (PcfFile "courR12.pcf.gz" None)) = None
  ∧ collect_proportional_dir "/tmp/x" "75"
      (demo_75dpi ++ PcfFile "courR12.pcf.gz" None :: demo_100dpi) ∅ =
    collect_proportional_dir "/tmp/x" "75" (demo_75dpi ++ demo_100dpi) ∅.
Proof.
  assert (classify_proportional (basename_of (PcfFile "courR12.pcf.gz" None)) = None)
    as Hnone by (vm_compute; reflexivity).
  split; [exact Hnone|].
  exact (unclassified_file_ignored "/tmp/x" "75" (PcfFile "courR12.pcf.gz" None)
           demo_75dpi demo_100dpi ∅ Hnone).
Defined.

(** X3.  The misc collector passes over, without reading its header, every
    file whose basename starts with one of the skip prefixes, and every
    file whose basename is not a key of [MISC_MAP]. *)
Theorem misc_file_ignored (tmp : string) (f : pcf_file)
    (before after : list pcf_file) (g : groups) :
  existsb (PyStr.startswith (basename_of f)) MISC_SKIP_PREFIXES = true
  ∨ dict_get MISC_MAP (basename_of f) = None →
  collect_misc_dir tmp (before ++ f :: after) g =
    collect_misc_dir tmp (before ++ after) g.
Proof.
  intros Hskip.
  rewrite !collect_misc_dir_app.
  destruct (collect_misc_dir tmp before g) as [g1|e]; [|done].
  rewrite !bind_Ok_l, collect_misc_dir_step.
  unfold misc_key. destruct (has_charset_marker (basename_of f)); [done|].
  destruct Hskip as [-> | ->]; [done|].
  by destruct (existsb (PyStr.startswith (basename_of f)) MISC_SKIP_PREFIXES).
Qed.

Lemma misc_file_ignored_demo :
  existsb (PyStr.startswith (basename_of (PcfFile "cursor.pcf.gz" None)))
    MISC_SKIP_PREFIXES = true
  ∧ collect_misc_dir "/tmp/x" (demo_misc ++ PcfFile "cursor.pcf.gz" None :: []) ∅ =
    collect_misc_dir "/tmp/x" (demo_misc ++ []) ∅.
Proof.
  assert (existsb (PyStr.startswith (basename_of (PcfFile "cursor.pcf.gz" None)))
            MISC_SKIP_PREFIXES = true) as Hskip by (vm_compute; reflexivity).
  split; [exact Hskip|].
  exact (misc_file_ignored "/tmp/x" (PcfFile "cursor.pcf.gz" None)
           demo_misc [] ∅ (or_introl Hskip)).
Defined.

(** X4.  In the misc collector the table lookup decides alone: a basename
    that is a key of [MISC_MAP] holds no character-set marker and starts
    with no skip prefix, so the two earlier tests never turn down a file
    that the table would accept. *)
Theorem misc_lookup_decides (basename : string) (v : string * string * Z) :
  dict_get MISC_MAP basename = Some v →
  has_charset_marker basename = false
  ∧ existsb (PyStr.startswith basename) MISC_SKIP_PREFIXES = false.
Proof.
  intros Hin%dict_get_Some_key. unfold dict_keys in Hin. simpl in Hin.
  case_elems Hin; by vm_compute.
Qed.

Lemma misc_lookup_decides_demo :
  dict_get MISC_MAP "6x13B" = Some ("X11Misc6x", "Bold", 13)
  ∧ has_charset_marker "6x13B" = false
  ∧ existsb (PyStr.startswith "6x13B") MISC_SKIP_PREFIXES = false.
Proof.
  assert (dict_get MISC_MAP "6x13B" = Some ("X11Misc6x", "Bold", 13)) as Hget
    by (vm_compute; reflexivity).
  split; [exact Hget|].
  exact (misc_lookup_decides "6x13B" _ Hget).
Defined.

(** X5.  A header whose pixel size is zero or negative: the proportional
    collector drops the file, the misc collector files it under the size
    of its table. *)
Theorem nonpositive_pixel_size (tmp dpi : string) (f : pcf_file)
    (rest : list pcf_file) (g : groups) (px : Z) :
  get_pixel_size (bdf_text f) = Ok px → px ≤ 0 →
  (∀ key, proportional_key f = Some key →
     collect_proportional_dir tmp dpi (f :: rest) g =
       collect_proportional_dir tmp dpi rest g)
  ∧ (∀ family style table_px, misc_key f = Some (family, style, table_px) →
     collect_misc_dir tmp (f :: rest) g =
       collect_misc_dir tmp rest
         (append_entry g (family, style)
            (table_px, misc_bdf_path tmp (basename_of f)))).
Proof.
  intros Hpx Hle.
  assert ((0 <? px) = false) as Hltb by lia.
  split.
  - intros key Hkey. rewrite collect_proportional_dir_step, Hkey, Hpx. simpl.
    by rewrite Hltb.
  - intros family style table_px Hkey.
    rewrite collect_misc_dir_step, Hkey, Hpx. simpl. by rewrite Hltb.
Qed.

Lemma nonpositive_pixel_size_demo :
  get_pixel_size (bdf_text (PcfFile "6x13.pcf.gz" (Some "PIXEL_SIZE -3"))) = Ok (-3)
  ∧ collect_misc_dir "/tmp/x" [PcfFile "6x13.pcf.gz" (Some "PIXEL_SIZE -3")] ∅ =
    collect_misc_dir "/tmp/x" []
      (append_entry ∅ ("X11Misc6x", "Regular")
         (13, misc_bdf_path "/tmp/x"
                (basename_of (PcfFile "6x13.pcf.gz" (Some "PIXEL_SIZE -3"))))).
Proof.
  assert (get_pixel_size (bdf_text (PcfFile "6x13.pcf.gz" (Some "PIXEL_SIZE -3")))
          = Ok (-3)) as Hpx by (vm_compute; reflexivity).
  split; [exact Hpx|].
  destruct (nonpositive_pixel_size "/tmp/x" "75"
              (PcfFile "6x13.pcf.gz" (Some "PIXEL_SIZE -3")) [] ∅ (-3) Hpx
              ltac:(lia)) as [_ Hmisc].
  apply Hmisc. vm_compute. reflexivity.
Defined.

(** ** When the collectors fail *)

Lemma collect_proportional_dir_ok_iff (tmp dpi : string) (files : list pcf_file)
    (g : groups) :
  (∃ g', collect_proportional_dir tmp dpi files g = Ok g') ↔
  Forall (λ f, is_Some (proportional_key f) →
               ∃ px, get_pixel_size (bdf_text f) = Ok px) files.
Proof.
  revert g. induction files as [|f rest IH]; intros g.
  - split; [constructor|eauto].
  - rewrite collect_proportional_dir_step, Forall_cons.
    destruct (proportional_key f) as [key|].
    + destruct (get_pixel_size (bdf_text f)) as [px|e].
      * rewrite bind_Ok_l. destruct (0 <? px); rewrite IH;
          (split; [intros ?; split; [eauto|done]|by intros [_ ?]]).
      * rewrite bind_Raise_l. split; [by intros [? ?]|].
        intros [H _]. destruct H as [? [=]]. eauto.
    + rewrite IH. split; [intros ?; split; [|done]|by intros [_ ?]].
      by intros [? [=]].
Qed.

Lemma collect_misc_dir_ok_iff (tmp : string) (files : list pcf_file) (g : groups) :
  (∃ g', collect_misc_dir tmp files g = Ok g') ↔
  Forall (λ f, is_Some (misc_key f) →
               ∃ px, get_pixel_size (bdf_text f) = Ok px) files.
Proof.
  revert g. induction files as [|f rest IH]; intros g.
  - split; [constructor|eauto].
  - rewrite collect_misc_dir_step, Forall_cons.
    destruct (misc_key f) as [[[family style] px0]|].
    + destruct (get_pixel_size (bdf_text f)) as [px|e].
      * rewrite bind_Ok_l, IH.
        split; [intros ?; split; [eauto|done]|by intros [_ ?]].
      * rewrite bind_Raise_l. split; [by intros [? ?]|].
        intros [H _]. destruct H as [? [=]]. eauto.
    + rewrite IH. split; [intros ?; split; [|done]|by intros [_ ?]].
      by intros [? [=]].
Qed.

(** The first file whose header cannot be read, among the files for which
    [reads] holds. *)
Lemma first_bad_header_cons (reads : pcf_file → Prop) (f : pcf_file)
    (rest : list pcf_file) (e : exn) :
  ¬ reads f ∨ (∃ px, get_pixel_size (bdf_text f) = Ok px) →
  (∃ before f0 after,
     rest = before ++ f0 :: after
     ∧ Forall (λ f, reads f → ∃ px, get_pixel_size (bdf_text f) = Ok px) before
     ∧ reads f0 ∧ get_pixel_size (bdf_text f0) = Raise e)
  ↔ (∃ before f0 after,
     f :: rest = before ++ f0 :: after
     ∧ Forall (λ f, reads f → ∃ px, get_pixel_size (bdf_text f) = Ok px) before
     ∧ reads f0 ∧ get_pixel_size (bdf_text f0) = Raise e).
Proof.
  intros Hf. split.
  - intros (before & f0 & after & -> & Hb & Hk & He).
    exists (f :: before), f0, after. split_and!; try done.
    constructor; [|done]. intros Hr. destruct Hf as [Hf|Hf]; [by destruct Hf|done].
  - intros ([|f' before] & f0 & after & Heq & Hb & Hk & He).
    + injection Heq as <- <-. destruct Hf as [Hf|[px Hf]]; [by destruct Hf|congruence].
    + injection Heq as <- ->. apply Forall_cons in Hb as [_ Hb].
      by exists before, f0, after.
Qed.

Lemma first_bad_header_here (reads : pcf_file → Prop) (f : pcf_file)
    (rest : list pcf_file) (e e' : exn) :
  reads f → get_pixel_size (bdf_text f) = Raise e' →
  e' = e ↔
  (∃ before f0 after,
     f :: rest = before ++ f0 :: after
     ∧ Forall (λ f, reads f → ∃ px, get_pixel_size (bdf_text f) = Ok px) before
     ∧ reads f0 ∧ get_pixel_size (bdf_text f0) = Raise e).
Proof.
  intros Hr Hpx. split.
  - intros <-. exists [], f, rest. by split_and!.
  - intros ([|f' before] & f0 & after & Heq & Hb & Hk & He).
    + injection Heq as <- <-. congruence.
    + injection Heq as <- ->. apply Forall_cons in Hb as [Hf _].
      destruct (Hf Hr) as [? ?]. congruence.
Qed.

Lemma collect_proportional_dir_raise_iff (tmp dpi : string) (files : list pcf_file)
    (g : groups) (e : exn) :
  collect_proportional_dir tmp dpi files g = Raise e ↔
  ∃ before f after,
    files = before ++ f :: after
    ∧ Forall (λ f, is_Some (proportional_key f) →
                   ∃ px, get_pixel_size (bdf_text f) = Ok px) before
    ∧ is_Some (proportional_key f)
    ∧ get_pixel_size (bdf_text f) = Raise e.
Proof.
  revert g. induction files as [|f rest IH]; intros g.
  - split; [done|]. by intros ([|??] & ? & ? & [=] & _).
  - rewrite collect_proportional_dir_step.
    destruct (proportional_key f) as [key|] eqn:Hkey.
    + destruct (get_pixel_size (bdf_text f)) as [px|e'] eqn:Hpx.
      * rewrite bind_Ok_l.
        destruct (0 <? px); rewrite IH;
          apply (first_bad_header_cons (λ f, is_Some (proportional_key f)));
          right; eauto.
      * rewrite bind_Raise_l.
        rewrite <-(first_bad_header_here (λ f, is_Some (proportional_key f))
                    f rest e e') by (by rewrite ?Hkey).
        split; [by intros [= ->]|by intros ->].
    + rewrite IH.
      apply (first_bad_header_cons (λ f, is_Some (proportional_key f))).
      left. rewrite Hkey. by intros [? ?].
Qed.

Lemma collect_misc_dir_raise_iff (tmp : string) (files : list pcf_file)
    (g : groups) (e : exn) :
  collect_misc_dir tmp files g = Raise e ↔
  ∃ before f after,
    files = before ++ f :: after
    ∧ Forall (λ f, is_Some (misc_key f) →
                   ∃ px, get_pixel_size (bdf_text f) = Ok px) before
    ∧ is_Some (misc_key f)
    ∧ get_pixel_size (bdf_text f) = Raise e.
Proof.
  revert g. induction files as [|f rest IH]; intros g.
  - split; [done|]. by intros ([|??] & ? & ? & [=] & _).
  - rewrite collect_misc_dir_step.
    destruct (misc_key f) as [[[family style] px0]|] eqn:Hkey.
    + destruct (get_pixel_size (bdf_text f)) as [px|e'] eqn:Hpx.
      * rewrite bind_Ok_l, IH.
        apply (first_bad_header_cons (λ f, is_Some (misc_key f))).
        right; eauto.
      * rewrite bind_Raise_l.
        rewrite <-(first_bad_header_here (λ f, is_Some (misc_key f))
                    f rest e e') by (by rewrite ?Hkey).
        split; [by intros [= ->]|by intros ->].
    + rewrite IH.
      apply (first_bad_header_cons (λ f, is_Some (misc_key f))).
      left. rewrite Hkey. by intros [? ?].
Qed.

(** X6.  The proportional collector returns its groups exactly when the
    header of every file it accepts can be read; otherwise it raises what
    the first such file raises, and the files it passes over never make
    it fail.  The same holds of the misc collector. *)
Theorem collectors_fail_on_first_bad_header (tmp dpi : string)
    (files : list pcf_file) (g : groups) :
  ((∃ g', collect_proportional_dir tmp dpi files g = Ok g') ↔
     Forall (λ f, is_Some (proportional_key f) →
                  ∃ px, get_pixel_size (bdf_text f) = Ok px) files)
  ∧ (∀ e, collect_proportional_dir tmp dpi files g = Raise e ↔
       ∃ before f after,
         files = before ++ f :: after
         ∧ Forall (λ f, is_Some (proportional_key f) →
                        ∃ px, get_pixel_size (bdf_text f) = Ok px) before
         ∧ is_Some (proportional_key f)
         ∧ get_pixel_size (bdf_text f) = Raise e)
  ∧ ((∃ g', collect_misc_dir tmp files g = Ok g') ↔
     Forall (λ f, is_Some (misc_key f) →
                  ∃ px, get_pixel_size (bdf_text f) = Ok px) files)
  ∧ (∀ e, collect_misc_dir tmp files g = Raise e ↔
       ∃ before f after,
         files = before ++ f :: after
         ∧ Forall (λ f, is_Some (misc_key f) →
                        ∃ px, get_pixel_size (bdf_text f) = Ok px) before
         ∧ is_Some (misc_key f)
         ∧ get_pixel_size (bdf_text f) = Raise e).
Proof.
  split_and!.
  - apply collect_proportional_dir_ok_iff.
  - intros e. apply collect_proportional_dir_raise_iff.
  - apply collect_misc_dir_ok_iff.
  - intros e. apply collect_misc_dir_raise_iff.
Qed.

Example collectors_fail_on_first_bad_header_example :
  collect_proportional_dir "/tmp/x" "75"
    [ PcfFile "courR12.pcf.gz" (Some "PIXEL_SIZE x");
      PcfFile "helvR10.pcf.gz" (Some "PIXEL_SIZE 10");
      PcfFile "helvR12.pcf.gz" (Some "PIXEL_SIZE ");
      PcfFile "helvR14.pcf.gz" None ] ∅
  = Raise IndexError.
Proof. vm_refl. Qed.

(** ** How the entries of a group come about *)

Lemma group_entries_empty (k : string * string) : group_entries ∅ k = [].
Proof. unfold group_entries. by rewrite lookup_empty. Qed.

(** Collecting into a dict that holds groups already appends to them what
    collecting into an empty dict gives. *)
Lemma collect_proportional_dir_acc (tmp dpi : string) (files : list pcf_file)
    (g g' : groups) :
  collect_proportional_dir tmp dpi files g = Ok g' →
  ∃ h, collect_proportional_dir tmp dpi files ∅ = Ok h
       ∧ ∀ k, group_entries g' k = group_entries g k ++ group_entries h k.
Proof.
  revert g'. induction files as [|f files IH] using rev_ind; intros g'.
  - intros [= <-]. exists ∅. split; [done|].
    intros k. by rewrite group_entries_empty, app_nil_r.
  - rewrite !collect_proportional_dir_app.
    intros (g1 & Hg1 & Hstep)%bind_Ok.
    destruct (IH g1 Hg1) as (h1 & Hh1 & Hrel). rewrite Hh1, bind_Ok_l.
    rewrite collect_proportional_dir_step in *.
    destruct (proportional_key f) as [key|]; [|injection Hstep as <-; eauto].
    destruct (get_pixel_size (bdf_text f)) as [px|e]; [|done].
    rewrite bind_Ok_l in *.
    destruct (0 <? px); injection Hstep as <-; [|eauto].
    eexists. split; [done|]. intros k.
    by rewrite !group_entries_append, Hrel, app_assoc.
Qed.

Lemma groups_of_both_directories (tmp : string)
    (files75 files100 : list pcf_file) (g : groups) :
  collect_proportional_fonts tmp (Some files75) (Some files100) = Ok g →
  ∃ g75 g100,
    collect_proportional_fonts tmp (Some files75) None = Ok g75
    ∧ collect_proportional_fonts tmp None (Some files100) = Ok g100
    ∧ ∀ key, group_entries g key = group_entries g75 key ++ group_entries g100 key.
Proof.
  unfold collect_proportional_fonts.
  intros (g75 & H75 & H100)%bind_Ok.
  destruct (collect_proportional_dir_acc _ _ _ _ _ H100) as (g100 & Hg100 & Hrel).
  exists g75, g100. rewrite H75, bind_Ok_l. by split_and!.
Qed.

(** X7.  With both resolution directories present, each group of the
    proportional collector is the list of its 75dpi entries followed by
    the list of its 100dpi entries, each as collected from that directory
    alone. *)
Theorem proportional_groups_75_then_100 (tmp : string)
    (files75 files100 : list pcf_file) (g : groups) :
  collect_proportional_fonts tmp (Some files75) (Some files100) = Ok g →
  ∃ g75 g100,
    collect_proportional_fonts tmp (Some files75) None = Ok g75
    ∧ collect_proportional_fonts tmp None (Some files100) = Ok g100
    ∧ ∀ key, group_entries g key = group_entries g75 key ++ group_entries g100 key.
Proof. apply groups_of_both_directories. Qed.

Lemma proportional_groups_75_then_100_demo :
  collect_proportional_fonts "/tmp/x" (Some demo_75dpi) (Some demo_100dpi)
    = Ok demo_prop_groups
  ∧ ∃ g75 g100,
      collect_proportional_fonts "/tmp/x" (Some demo_75dpi) None = Ok g75
      ∧ collect_proportional_fonts "/tmp/x" None (Some demo_100dpi) = Ok g100
      ∧ ∀ key, group_entries demo_prop_groups key =
                 group_entries g75 key ++ group_entries g100 key.
Proof.
  assert (collect_proportional_fonts "/tmp/x" (Some demo_75dpi) (Some demo_100dpi)
            = Ok demo_prop_groups) as Hprop by vm_refl.
  split; [exact Hprop|].
  exact (proportional_groups_75_then_100 "/tmp/x" demo_75dpi demo_100dpi
           demo_prop_groups Hprop).
Defined.

Lemma head_filter_app_l {A} (P : A → Prop) `{!∀ x, Decision (P x)}
    (l1 l2 : list A) (x : A) :
  x ∈ l1 → P x → head (filter P (l1 ++ l2)) = head (filter P l1).
Proof.
  intros Hx HP. rewrite filter_app.
  assert (x ∈ filter P l1) as Hin by (by apply list_elem_of_filter).
  destruct (filter P l1); [by apply elem_of_nil in Hin|done].
Qed.

(** X8.  When the two resolutions both offer a strike of one pixel size
    for a group, the strike that is built into the font is a 75dpi one. *)
Theorem same_size_75dpi_wins (tmp : string) (files75 files100 : list pcf_file)
    (g g75 : groups) (key : string * string) (e e75 : entry) :
  collect_proportional_fonts tmp (Some files75) (Some files100) = Ok g →
  collect_proportional_fonts tmp (Some files75) None = Ok g75 →
  e ∈ sort_dedup (group_entries g key) →
  e75 ∈ group_entries g75 key → e75.1 = e.1 →
  e ∈ group_entries g75 key.
Proof.
  intros Hg Hg75 He He75 Hpx.
  destruct (groups_of_both_directories tmp files75 files100 g Hg)
    as (g75' & g100 & Hg75' & _ & Hrel).
  assert (g75' = g75) as -> by congruence.
  apply sort_dedup_elem in He as [_ Hfirst]. rewrite Hrel in Hfirst.
  rewrite (head_filter_app_l _ _ _ e75) in Hfirst by done.
  apply head_Some_elem_of, list_elem_of_filter in Hfirst. by destruct Hfirst.
Qed.

Lemma same_size_75dpi_wins_demo :
  (10, "/tmp/x/helvR10_75dpi.bdf")
    ∈ sort_dedup (group_entries demo_prop_groups ("X11Helv", "Regular"))
  ∧ (10, "/tmp/x/helvR10_75dpi.bdf")
    ∈ group_entries
        (<[("X11Helv", "Regular") :=
             [(10, "/tmp/x/helvR10_75dpi.bdf"); (10, "/tmp/x/helvR12_75dpi.bdf")]]>
           {[ ("X11Helv", "Bold") := [(12, "/tmp/x/helvB12_75dpi.bdf")] ]})
        ("X11Helv", "Regular").
Proof.
  assert (collect_proportional_fonts "/tmp/x" (Some demo_75dpi) (Some demo_100dpi)
            = Ok demo_prop_groups) as Hg by vm_refl.
  assert (collect_proportional_fonts "/tmp/x" (Some demo_75dpi) None
            = Ok (<[("X11Helv", "Regular") :=
                      [(10, "/tmp/x/helvR10_75dpi.bdf");
                       (10, "/tmp/x/helvR12_75dpi.bdf")]]>
                    {[ ("X11Helv", "Bold") := [(12, "/tmp/x/helvB12_75dpi.bdf")] ]}))
    as Hg75 by vm_refl.
  assert ((10, "/tmp/x/helvR10_75dpi.bdf")
            ∈ sort_dedup (group_entries demo_prop_groups ("X11Helv", "Regular")))
    as He by (apply (bool_decide_unpack _); by vm_compute).
  split; [exact He|].
  refine (same_size_75dpi_wins "/tmp/x" demo_75dpi demo_100dpi _ _
            ("X11Helv", "Regular") _ (10, "/tmp/x/helvR12_75dpi.bdf")
            Hg Hg75 He _ eq_refl).
  apply (bool_decide_unpack _). by vm_compute.
Defined.

(** X9.  What a group of the proportional collector holds: an entry for
    every file that the collector accepts under the key of the group and
    whose header gives a positive pixel size, with that size and the BDF
    path made from the basename and the resolution, and nothing else. *)
Theorem proportional_group_members (tmp dpi : string) (files : list pcf_file)
    (g : groups) (key : string * string) (e : entry) :
  collect_proportional_dir tmp dpi files ∅ = Ok g →
  e ∈ group_entries g key ↔
  ∃ f, f ∈ files
       ∧ proportional_key f = Some key
       ∧ get_pixel_size (bdf_text f) = Ok e.1
       ∧ 0 < e.1
       ∧ e.2 = proportional_bdf_path tmp dpi (basename_of f).
Proof.
  revert g. induction files as [|f files IH] using rev_ind; intros g.
  - intros [= <-]. rewrite group_entries_empty. split.
    + by intros ?%elem_of_nil.
    + by intros (f & ?%elem_of_nil & _).
  - rewrite collect_proportional_dir_app.
    intros (g1 & Hg1 & Hstep)%bind_Ok. specialize (IH g1 Hg1).
    rewrite collect_proportional_dir_step in Hstep.
    assert (g = g1 →
            (∀ px, proportional_key f = Some key →
                   get_pixel_size (bdf_text f) = Ok px → ¬ 0 < px) →
            e ∈ group_entries g key ↔
            ∃ f0, f0 ∈ files ++ [f] ∧ proportional_key f0 = Some key
                  ∧ get_pixel_size (bdf_text f0) = Ok e.1 ∧ 0 < e.1
                  ∧ e.2 = proportional_bdf_path tmp dpi (basename_of f0)) as Hsame.
    { intros -> Hf. rewrite IH. split.
      - intros (f0 & Hin & ?). exists f0. split; [|done].
        apply elem_of_app. by left.
      - intros (f0 & [Hin|Hin%list_elem_of_singleton]%elem_of_app & Hk & Hpx & Hpos & ?).
        + by exists f0.
        + subst f0. by destruct (Hf _ Hk Hpx). }
    destruct (proportional_key f) as [key'|] eqn:Hkey;
      [|injection Hstep as <-; by apply Hsame].
    destruct (get_pixel_size (bdf_text f)) as [px|err] eqn:Hpx; [|done].
    rewrite bind_Ok_l in Hstep.
    destruct (0 <? px) eqn:Hpos; injection Hstep as <-.
    + rewrite group_entries_append, elem_of_app, IH. split.
      * intros [(f0 & Hin & ?)|Hnew].
        -- exists f0. split; [apply elem_of_app; by left|done].
        -- case_decide as Hk; [|by apply elem_of_nil in Hnew].
           apply list_elem_of_singleton in Hnew as ->. subst key'.
           exists f. split_and!; try done; [|simpl; lia].
           apply elem_of_app. right. apply list_elem_of_here.
      * intros (f0 & [Hin|Hin%list_elem_of_singleton]%elem_of_app & Hk & Hpx0 & Hpos0 & Hpath).
        -- left. by exists f0.
        -- subst f0. right. assert (key' = key) as -> by congruence.
           rewrite decide_True by done.
           assert (px = e.1) as -> by congruence.
           destruct e as [e1 e2]. simpl in *. subst e2. apply list_elem_of_here.
    + apply Hsame; [done|]. intros px' _ [= <-]. lia.
Qed.

Lemma proportional_group_members_demo :
  collect_proportional_dir "/tmp/x" "100" demo_100dpi ∅
    = Ok (<[("X11Helv", "Regular") :=
              [(14, "/tmp/x/helvR10_100dpi.bdf"); (8, "/tmp/x/helvR08_100dpi.bdf")]]>
            {[ ("X11Helv", "Bold") := [(17, "/tmp/x/helvB12_100dpi.bdf")] ]})
  ∧ ((8, "/tmp/x/helvR08_100dpi.bdf")
       ∈ group_entries
           (<[("X11Helv", "Regular") :=
                [(14, "/tmp/x/helvR10_100dpi.bdf"); (8, "/tmp/x/helvR08_100dpi.bdf")]]>
              {[ ("X11Helv", "Bold") := [(17, "/tmp/x/helvB12_100dpi.bdf")] ]})
           ("X11Helv", "Regular")
     ↔ ∃ f, f ∈ demo_100dpi
            ∧ proportional_key f = Some ("X11Helv", "Regular")
            ∧ get_pixel_size (bdf_text f) = Ok 8
            ∧ 0 < 8
            ∧ "/tmp/x/helvR08_100dpi.bdf"
              = proportional_bdf_path "/tmp/x" "100" (basename_of f)).
Proof.
  assert (collect_proportional_dir "/tmp/x" "100" demo_100dpi ∅
    = Ok (<[("X11Helv", "Regular") :=
              [(14, "/tmp/x/helvR10_100dpi.bdf"); (8, "/tmp/x/helvR08_100dpi.bdf")]]>
            {[ ("X11Helv", "Bold") := [(17, "/tmp/x/helvB12_100dpi.bdf")] ]}))
    as Hg by vm_refl.
  split; [exact Hg|].
  exact (proportional_group_members "/tmp/x" "100" demo_100dpi _
           ("X11Helv", "Regular") (8, "/tmp/x/helvR08_100dpi.bdf") Hg).
Defined.

(** ** The two header readers *)

Lemma scan_metadata_cons (line : string) (rest : list string) (meta : metadata) :
  scan_metadata (line :: rest) meta =
    if PyStr.startswith line "COPYRIGHT " then
      scan_metadata rest
        (Metadata (header_value (slice_from 10 line))
                  (meta_notice meta) (meta_foundry meta))
    else if PyStr.startswith line "NOTICE " then
      scan_metadata rest
        (Metadata (meta_copyright meta)
                  (header_value (slice_from 7 line)) (meta_foundry meta))
    else if PyStr.startswith line "FOUNDRY " then
      scan_metadata rest
        (Metadata (meta_copyright meta) (meta_notice meta)
                  (header_value (slice_from 8 line)))
    else if PyStr.startswith line "STARTCHAR" then meta
    else scan_metadata rest meta.
Proof. reflexivity. Qed.

Lemma startchar_line (line : string) :
  PyStr.startswith line "STARTCHAR" = true →
  PyStr.startswith line "COPYRIGHT " = false
  ∧ PyStr.startswith line "NOTICE " = false
  ∧ PyStr.startswith line "FOUNDRY " = false
  ∧ PyStr.startswith line "PIXEL_SIZE " = false.
Proof. intros [t ->]%startswith_app. by split_and!. Qed.

Lemma scan_metadata_startchar (line : string) (rest : list string) (meta : metadata) :
  PyStr.startswith line "STARTCHAR" = true →
  scan_metadata (line :: rest) meta = meta.
Proof.
  intros Hs. destruct (startchar_line line Hs) as (Hc & Hn & Hf & _).
  by rewrite scan_metadata_cons, Hc, Hn, Hf, Hs.
Qed.

Lemma scan_pixel_size_startchar (line : string) (rest : list string) :
  PyStr.startswith line "STARTCHAR" = true →
  scan_pixel_size (line :: rest) = Ok 0.
Proof.
  intros Hs. destruct (startchar_line line Hs) as (_ & _ & _ & Hp).
  by rewrite scan_pixel_size_cons, Hp, Hs.
Qed.

Lemma scan_metadata_cut (pre : list string) (line : string)
    (post post' : list string) (meta : metadata) :
  PyStr.startswith line "STARTCHAR" = true →
  scan_metadata (pre ++ line :: post) meta = scan_metadata (pre ++ line :: post') meta.
Proof.
  intros Hs. revert meta. induction pre as [|l pre IH]; intros meta.
  - simpl app. by rewrite !scan_metadata_startchar.
  - rewrite <-!app_comm_cons, !scan_metadata_cons.
    repeat (case_match; [apply IH|]). case_match; [done|apply IH].
Qed.

Lemma scan_pixel_size_cut (pre : list string) (line : string)
    (post post' : list string) :
  PyStr.startswith line "STARTCHAR" = true →
  scan_pixel_size (pre ++ line :: post) = scan_pixel_size (pre ++ line :: post').
Proof.
  intros Hs. induction pre as [|l pre IH].
  - simpl app. by rewrite !scan_pixel_size_startchar.
  - rewrite <-!app_comm_cons, !scan_pixel_size_cons.
    case_match; [done|]. by case_match.
Qed.

(** X10.  Neither header reader looks past the first line that starts the
    glyph data: two files whose lines agree up to and including a
    STARTCHAR line give the same pixel size and the same metadata. *)
Theorem readers_stop_at_startchar (text text' : string) (pre : list string)
    (line : string) (post post' : list string) :
  readlines text = pre ++ line :: post →
  readlines text' = pre ++ line :: post' →
  PyStr.startswith line "STARTCHAR" = true →
  get_pixel_size (Some text) = get_pixel_size (Some text')
  ∧ extract_bdf_metadata (Some text) = extract_bdf_metadata (Some text').
Proof.
  intros Hlines Hlines' Hs. simpl. rewrite Hlines, Hlines'. split.
  - by apply scan_pixel_size_cut.
  - f_equal. by apply scan_metadata_cut.
Qed.

Lemma readers_stop_at_startchar_demo :
  get_pixel_size (Some "FONT a
STARTCHAR space
PIXEL_SIZE 12
") = get_pixel_size (Some "FONT a
STARTCHAR space
COPYRIGHT x
")
  ∧ extract_bdf_metadata (Some "FONT a
STARTCHAR space
PIXEL_SIZE 12
") = extract_bdf_metadata (Some "FONT a
STARTCHAR space
COPYRIGHT x
").
Proof.
  refine (readers_stop_at_startchar _ _ ["FONT a
"] "STARTCHAR space
" ["PIXEL_SIZE 12
"] ["COPYRIGHT x
"] _ _ _); vm_refl.
Defined.

(** The copyright field is only changed by a COPYRIGHT line. *)
Lemma scan_metadata_copyright_kept (mid tail : list string) (meta : metadata) :
  Forall (λ l, PyStr.startswith l "COPYRIGHT " = false) mid →
  tail = [] ∨ (∃ s rest, tail = s :: rest ∧ PyStr.startswith s "STARTCHAR" = true) →
  meta_copyright (scan_metadata (mid ++ tail) meta) = meta_copyright meta.
Proof.
  intros Hmid Htail. revert meta. induction Hmid as [|l mid Hl _ IH]; intros meta.
  - simpl app. destruct Htail as [->|(s & rest & -> & Hs)]; [done|].
    by rewrite scan_metadata_startchar.
  - rewrite <-app_comm_cons, scan_metadata_cons, Hl.
    repeat (case_match; [by rewrite IH|]). case_match; [done|apply IH].
Qed.

Lemma scan_metadata_reaches (pre rest : list string) (meta : metadata) :
  Forall (λ l, PyStr.startswith l "STARTCHAR" = false) pre →
  ∃ meta', scan_metadata (pre ++ rest) meta = scan_metadata rest meta'.
Proof.
  intros Hpre. revert meta. induction Hpre as [|l pre Hl _ IH]; intros meta.
  - by exists meta.
  - rewrite <-app_comm_cons, scan_metadata_cons, Hl.
    repeat (case_match; [apply IH|]). apply IH.
Qed.

(** X11.  Of several COPYRIGHT lines in a header the last one before the
    glyph data gives the copyright (whereas the first PIXEL_SIZE line
    gives the pixel size); a header without one gives the empty string. *)
Theorem copyright_last_declaration_wins (text : string) :
  (∀ pre line mid tail meta,
     readlines text = pre ++ line :: mid ++ tail →
     Forall (λ l, PyStr.startswith l "STARTCHAR" = false) pre →
     PyStr.startswith line "COPYRIGHT " = true →
     Forall (λ l, PyStr.startswith l "COPYRIGHT " = false) mid →
     tail = [] ∨ (∃ s rest, tail = s :: rest ∧ PyStr.startswith s "STARTCHAR" = true) →
     extract_bdf_metadata (Some text) = Ok meta →
     meta_copyright meta = header_value (slice_from 10 line))
  ∧ (∀ mid tail meta,
     readlines text = mid ++ tail →
     Forall (λ l, PyStr.startswith l "COPYRIGHT " = false) mid →
     tail = [] ∨ (∃ s rest, tail = s :: rest ∧ PyStr.startswith s "STARTCHAR" = true) →
     extract_bdf_metadata (Some text) = Ok meta →
     meta_copyright meta = "").
Proof.
  split.
  - intros pre line mid tail meta Hlines Hpre Hline Hmid Htail. simpl.
    rewrite Hlines. intros [= <-].
    destruct (scan_metadata_reaches pre (line :: mid ++ tail) (Metadata "" "" "") Hpre)
      as [meta' ->].
    rewrite scan_metadata_cons, Hline. by rewrite scan_metadata_copyright_kept.
  - intros mid tail meta Hlines Hmid Htail. simpl. rewrite Hlines. intros [= <-].
    by rewrite scan_metadata_copyright_kept.
Qed.

Example copyright_last_declaration_wins_example :
  extract_bdf_metadata (Some "COPYRIGHT first
NOTICE n
COPYRIGHT second
STARTCHAR a
COPYRIGHT third
") = Ok (Metadata "second" "n" "").
Proof. vm_refl. Qed.

(** ** Header values *)









(** ** The header that a build reads *)



(** ** What a build can fail with, and the style flags *)

Section BuildFacts.
Variable extract_bdf_metadata : string → result metadata.
Variable host_trace : list entry → Z → result (list Z).
Variable host_generate : string → font → result ().

Lemma positive_group_ends (bdf_entries : list entry) :
  bdf_entries ≠ [] → Forall (λ e : entry, 0 < e.1) bdf_entries →
  ∃ smallest_px smallest_bdf largest_px largest_bdf,
    head (sort_dedup bdf_entries) = Some (smallest_px, smallest_bdf)
    ∧ last (sort_dedup bdf_entries) = Some (largest_px, largest_bdf)
    ∧ 0 < largest_px.
Proof.
  intros Hne Hpos. pose proof (sort_dedup_nonempty bdf_entries Hne) as Hne'.
  destruct (head (sort_dedup bdf_entries)) as [[spx sbdf]|] eqn:Hh;
    [|by apply head_None in Hh].
  destruct (last (sort_dedup bdf_entries)) as [[lpx lbdf]|] eqn:Hl;
    [|by apply last_None in Hl].
  exists spx, sbdf, lpx, lbdf. split_and!; [done..|].
  apply last_Some_elem_of, sort_dedup_elem in Hl as [Hin _].
  rewrite Forall_forall in Hpos. by apply (Hpos _ Hin).
Qed.

(** X14.  For a group as the collectors form it (not empty, all pixel
    sizes positive) a build fails only when reading the metadata, the
    engine or the writing of the file fails, and with that error; it
    never returns without a file name, and the name is that of the key. *)
Theorem build_fails_only_with_host (family style : string)
    (bdf_entries : list entry) :
  bdf_entries ≠ [] → Forall (λ e : entry, 0 < e.1) bdf_entries →
  (∀ e,
     build_font extract_bdf_metadata host_trace host_generate
       family style bdf_entries = Raise e →
     (∃ bdf_path, extract_bdf_metadata bdf_path = Raise e)
     ∨ (∃ strikes em, host_trace strikes em = Raise e)
     ∨ (∃ ttf_name f, host_generate ttf_name f = Raise e))
  ∧ build_font extract_bdf_metadata host_trace host_generate
      family style bdf_entries ≠ Ok None
  ∧ (∀ ttf_name f,
       build_font extract_bdf_metadata host_trace host_generate
         family style bdf_entries = Ok (Some (ttf_name, f)) →
       ttf_name = ttf_name_of (family, style)).
Proof.
  intros Hne Hpos.
  destruct (positive_group_ends bdf_entries Hne Hpos)
    as (spx & sbdf & lpx & lbdf & Hh & Hl & Hlpx).
  unfold build_font. destruct bdf_entries as [|e0 t]; [done|].
  revert Hh Hl. generalize (sort_dedup (e0 :: t)). intros l Hh Hl.
  rewrite Hh, Hl.
  assert (floordiv (lpx * 100) lpx = Ok 100) as ->.
  { unfold floordiv. assert ((lpx =? 0) = false) as -> by lia.
    by rewrite Z.mul_comm, Z.div_mul by lia. }
  destruct (extract_bdf_metadata sbdf) as [meta|e1] eqn:Hmeta;
    [|rewrite bind_Raise_l; split_and!; [|done..]; intros e [= <-]; eauto].
  rewrite bind_Ok_l.
  destruct (host_trace l (lpx * 100)) as [traced|e2] eqn:Htrace;
    [|rewrite bind_Raise_l; split_and!; [|done..]; intros e [= <-]; eauto].
  rewrite !bind_Ok_l.
  match goal with
  | |- context [host_generate ?n ?f] =>
      destruct (host_generate n f) as [[]|e3] eqn:Hgen
  end.
  - rewrite bind_Ok_l. split_and!; [done..|]. by intros ttf_name f [= <- _].
  - rewrite bind_Raise_l. split_and!; [|done..]. intros e [= <-]. eauto 10.
Qed.

Lemma build_flags (family style : string) (bdf_entries : list entry)
    (ttf_name : string) (f : font) :
  build_font extract_bdf_metadata host_trace host_generate
    family style bdf_entries = Ok (Some (ttf_name, f)) →
  os2_weight f = (if PyStr.contains "Bold" style then 700 else 400)
  ∧ weight f = (if PyStr.contains "Bold" style then "Bold" else "Regular")
  ∧ os2_stylemap f = (stylebits style).1
  ∧ macstyle f = (stylebits style).2.
Proof.
  unfold build_font. destruct bdf_entries as [|e0 t]; [done|].
  generalize (sort_dedup (e0 :: t)). intros l.
  destruct (head l) as [[smallest_px smallest_bdf]|]; [|done].
  destruct (last l) as [[largest_px largest_bdf]|]; [|done].
  intros (meta & Hmeta & H)%bind_Ok.
  apply bind_Ok in H as (traced & Htraced & H).
  apply bind_Ok in H as (scale & Hscale & H).
  apply bind_Ok in H as ([] & Hgen & H).
  by injection H as <- <-.
Qed.

(** X15.  For the four styles of the tables the style flags of a built
    font agree with its weight and its style: the bold bits (bit 0 of
    [macstyle], bit 5 of [os2_stylemap]) are set exactly when the weight
    class is 700, the italic bits (bit 1 and bit 0) exactly when the style
    has Oblique in it, and the regular bit (bit 6 of [os2_stylemap])
    exactly for Regular. *)
Theorem style_flags_agree (family style : string) (bdf_entries : list entry)
    (ttf_name : string) (f : font) :
  style ∈ STYLES →
  build_font extract_bdf_metadata host_trace host_generate
    family style bdf_entries = Ok (Some (ttf_name, f)) →
  (Z.testbit (macstyle f) 0 = true ↔ os2_weight f = 700)
  ∧ (Z.testbit (os2_stylemap f) 5 = true ↔ os2_weight f = 700)
  ∧ (Z.testbit (macstyle f) 1 = true ↔ PyStr.contains "Oblique" style = true)
  ∧ (Z.testbit (os2_stylemap f) 0 = true ↔ PyStr.contains "Oblique" style = true)
  ∧ (Z.testbit (os2_stylemap f) 6 = true ↔ style = "Regular")
  ∧ (weight f = "Bold" ↔ os2_weight f = 700).
Proof.
  intros Hstyle (Hw & Hwn & Hmap & Hmac)%build_flags.
  rewrite Hw, Hwn, Hmap, Hmac. unfold STYLES in Hstyle.
  case_elems Hstyle; by vm_compute.
Qed.
End BuildFacts.

Lemma build_fails_only_with_host_demo :
  demo_entries ≠ [] ∧ Forall (λ e : entry, 0 < e.1) demo_entries
  ∧ build_font demo_metadata demo_trace demo_generate
      "X11Helv" "Regular" demo_entries ≠ Ok None.
Proof.
  assert (demo_entries ≠ []) as Hne by done.
  assert (Forall (λ e : entry, 0 < e.1) demo_entries) as Hpos
    by (apply (bool_decide_unpack _); by vm_compute).
  split_and!; [exact Hne|exact Hpos|].
  destruct (build_fails_only_with_host demo_metadata demo_trace demo_generate
              "X11Helv" "Regular" demo_entries Hne Hpos) as (_ & Hsome & _).
  exact Hsome.
Defined.

Lemma style_flags_agree_demo :
  "BoldOblique" ∈ STYLES
  ∧ (Z.testbit (macstyle demo_font) 0 = true ↔ os2_weight demo_font = 700)
  ∧ (Z.testbit (os2_stylemap demo_font) 6 = true ↔ "BoldOblique" = "Regular").
Proof.
  assert ("BoldOblique" ∈ STYLES) as Hstyle
    by (apply (bool_decide_unpack _); by vm_compute).
  assert (build_font demo_metadata demo_trace demo_generate
            "X11Helv" "BoldOblique" demo_entries
          = Ok (Some ("X11Helv-BoldOblique.ttf", demo_font))) as Hbuild by vm_refl.
  split; [exact Hstyle|].
  destruct (style_flags_agree demo_metadata demo_trace demo_generate
              "X11Helv" "BoldOblique" demo_entries _ demo_font Hstyle Hbuild)
    as (Hbold & _ & _ & _ & Hregular & _).
  by split.
Defined.

(** ** The sizes that the run prints *)

Lemma StronglySorted_fmap_fst (l : list entry) :
  StronglySorted (λ a b : entry, a.1 < b.1) l → StronglySorted Z.lt l.*1.
Proof.
  induction 1 as [|x t Hs IH Hx]; simpl; constructor; [done|].
  by apply Forall_fmap.
Qed.

Lemma StronglySorted_lt_NoDup (l : list Z) : StronglySorted Z.lt l → NoDup l.
Proof.
  induction 1 as [|x t Hs IH Hx]; constructor; [|done].
  intros Hin. rewrite Forall_forall in Hx. specialize (Hx x Hin). lia.
Qed.

Lemma StronglySorted_le_NoDup_lt (l : list Z) :
  StronglySorted Z.le l → NoDup l → StronglySorted Z.lt l.
Proof.
  induction 1 as [|x t Hs IH Hx]; intros Hnd; constructor.
  - apply IH. by apply NoDup_cons in Hnd as [_ ?].
  - apply NoDup_cons in Hnd as [Hx' _]. rewrite Forall_forall in *.
    intros y Hy. specialize (Hx y Hy). assert (x ≠ y) by (by intros ->). lia.
Qed.

(** X16.  The sizes that the run prints for a group are the pixel sizes
    of the strikes that the build keeps, in the same order. *)
Theorem printed_sizes_are_strikes (entries : list entry) :
  sizes_of entries = (sort_dedup entries).*1.
Proof.
  assert (StronglySorted Z.lt (sort_dedup entries).*1) as Hs1
    by apply StronglySorted_fmap_fst, sort_dedup_strict.
  assert (NoDup (sizes_of entries)) as Hnd.
  { unfold sizes_of. rewrite py_sorted_perm. apply NoDup_elements. }
  assert (StronglySorted Z.lt (sizes_of entries)) as Hs2.
  { apply StronglySorted_le_NoDup_lt; [|done].
    eapply StronglySorted_weaken; [|apply py_sorted_sorted].
    intros a b. unfold goes_before. simpl. lia. }
  apply (StronglySorted_unique_strong Z.lt); [intros; lia|done..|].
  apply NoDup_Permutation; [done|by apply StronglySorted_lt_NoDup|].
  intros x. unfold sizes_of.
  rewrite py_sorted_perm, elem_of_elements, elem_of_list_to_set, !list_elem_of_fmap.
  split.
  - intros (e & -> & He).
    destruct (dedup_loop_covers ∅ (py_sorted fst false entries) e)
      as (e' & He' & Hpx); [by rewrite py_sorted_perm|apply not_elem_of_empty|].
    by exists e'.
  - intros (e & -> & [He _]%sort_dedup_elem). by exists e.
Qed.

(** ** Rounding *)

(** X17.  Rounding moves an advance width by at most half a unit of the
    grid, and keeps the order of widths. *)
Theorem round_width_half_unit (scale w w' : Z) :
  0 < scale →
  2 * Z.abs (round_width scale w - w) ≤ scale
  ∧ (w ≤ w' → round_width scale w ≤ round_width scale w').
Proof.
  intros Hs. unfold round_width, round_div.
  pose proof (Z.div_mod w scale ltac:(lia)) as Hdm.
  pose proof (Z.mod_pos_bound w scale Hs) as Hr.
  pose proof (Z.div_mod w' scale ltac:(lia)) as Hdm'.
  pose proof (Z.mod_pos_bound w' scale Hs) as Hr'.
  set (q := w / scale) in *. set (r := w mod scale) in *.
  set (q' := w' / scale) in *. set (r' := w' mod scale) in *.
  rewrite !(Z.abs_eq r), !(Z.abs_eq r'), !(Z.abs_eq scale) by lia.
  split.
  - destruct (2 * r <? scale) eqn:E1; [|destruct (scale <? 2 * r) eqn:E2;
      [|destruct (Z.even q)]]; nia.
  - intros Hle.
    assert (q < q' ∨ (q = q' ∧ r ≤ r')) as [Hq|[<- Hrr]] by nia.
    + assert ((if 2 * r <? scale then q
               else if scale <? 2 * r then q + 1
               else if Z.even q then q else q + 1) ≤ q + 1) as H1
        by (repeat case_match; lia).
      assert (q' ≤ (if 2 * r' <? scale then q'
               else if scale <? 2 * r' then q' + 1
               else if Z.even q' then q' else q' + 1)) as H2
        by (repeat case_match; lia).
      nia.
    + apply Z.mul_le_mono_nonneg_r; [lia|].
      destruct (2 * r <? scale) eqn:E1, (2 * r' <? scale) eqn:E1',
        (scale <? 2 * r) eqn:E2, (scale <? 2 * r') eqn:E2', (Z.even q); lia.
Qed.

Lemma round_width_half_unit_demo :
  2 * Z.abs (round_width 100 549 - 549) ≤ 100
  ∧ (549 ≤ 550 → round_width 100 549 ≤ round_width 100 550).
Proof. exact (round_width_half_unit 100 549 550 ltac:(lia)). Defined.

(** ** The files of a run *)

Lemma PROPORTIONAL_known (p : string) (key : string * string) :
  dict_get PROPORTIONAL p = Some key → known_key key.
Proof.
  intros H%dict_get_elem.
  assert (Forall (λ kv : string * (string * string),
                    kv.2.1 ∈ FAMILIES ∧ kv.2.2 ∈ STYLES) PROPORTIONAL) as Hall.
  { apply (bool_decide_unpack _). by vm_compute. }
  rewrite Forall_forall in Hall. apply (Hall _ H).
Qed.

Lemma MISC_MAP_known (basename family style : string) (px : Z) :
  dict_get MISC_MAP basename = Some (family, style, px) → known_key (family, style).
Proof.
  intros H%dict_get_elem.
  assert (Forall (λ kv : string * (string * string * Z),
                    kv.2.1.1 ∈ FAMILIES ∧ kv.2.1.2 ∈ STYLES) MISC_MAP) as Hall.
  { apply (bool_decide_unpack _). by vm_compute. }
  rewrite Forall_forall in Hall. apply (Hall _ H).
Qed.

Lemma proportional_key_known (f : pcf_file) (key : string * string) :
  proportional_key f = Some key → known_key key.
Proof.
  unfold proportional_key. destruct (has_charset_marker (basename_of f)); [done|].
  intros Hcl.
  destruct (classify_proportional_first (basename_of f))
    as [(p & fs & _ & _ & Hcl' & Hget & _)|[Hnone _]]; [|congruence].
  rewrite Hcl in Hcl'. injection Hcl' as <-. by eapply PROPORTIONAL_known.
Qed.

Lemma misc_key_known (f : pcf_file) (family style : string) (px : Z) :
  misc_key f = Some (family, style, px) → known_key (family, style).
Proof.
  unfold misc_key. destruct (has_charset_marker (basename_of f)); [done|].
  destruct (existsb (PyStr.startswith (basename_of f)) MISC_SKIP_PREFIXES); [done|].
  apply MISC_MAP_known.
Qed.

Lemma append_entry_known (g : groups) (key : string * string) (e : entry) :
  (∀ k l, g !! k = Some l → known_key k) → known_key key →
  ∀ k l, append_entry g key e !! k = Some l → known_key k.
Proof.
  intros Hg Hkey k l. unfold append_entry. rewrite lookup_insert.
  case_decide as Hk; [by subst|apply Hg].
Qed.

Lemma collect_proportional_dir_known (tmp dpi : string) (files : list pcf_file)
    (g g' : groups) :
  (∀ k l, g !! k = Some l → known_key k) →
  collect_proportional_dir tmp dpi files g = Ok g' →
  ∀ k l, g' !! k = Some l → known_key k.
Proof.
  revert g. induction files as [|f rest IH]; intros g Hg.
  - by intros [= <-].
  - rewrite collect_proportional_dir_step.
    destruct (proportional_key f) as [key|] eqn:Hkey; [|by apply IH].
    apply proportional_key_known in Hkey.
    destruct (get_pixel_size (bdf_text f)) as [px|e]; [|done].
    rewrite bind_Ok_l. destruct (0 <? px); [|by apply IH].
    by apply IH, append_entry_known.
Qed.

Lemma collect_misc_dir_known (tmp : string) (files : list pcf_file) (g g' : groups) :
  (∀ k l, g !! k = Some l → known_key k) →
  collect_misc_dir tmp files g = Ok g' →
  ∀ k l, g' !! k = Some l → known_key k.
Proof.
  revert g. induction files as [|f rest IH]; intros g Hg.
  - by intros [= <-].
  - rewrite collect_misc_dir_step.
    destruct (misc_key f) as [[[family style] px0]|] eqn:Hkey; [|by apply IH].
    apply misc_key_known in Hkey.
    destruct (get_pixel_size (bdf_text f)) as [px|e]; [|done].
    rewrite bind_Ok_l. by apply IH, append_entry_known.
Qed.

Lemma collected_keys_known (tmp : string) (dir75 dir100 dir_misc : font_dir)
    (prop_groups misc_groups : groups) (key : string * string)
    (entries : list entry) :
  collect_proportional_fonts tmp dir75 dir100 = Ok prop_groups →
  collect_misc_fonts tmp dir_misc = Ok misc_groups →
  merge_groups prop_groups misc_groups !! key = Some entries →
  known_key key.
Proof.
  intros Hprop Hmisc. rewrite merge_groups_lookup.
  assert (∀ k (l : list entry), (∅ : groups) !! k = Some l → known_key k) as Hempty
    by (intros k l; by rewrite lookup_empty).
  assert (∀ k l, misc_groups !! k = Some l → known_key k) as Hm.
  { destruct dir_misc as [files|]; simpl in Hmisc.
    - eapply collect_misc_dir_known; [|exact Hmisc]. exact Hempty.
    - by injection Hmisc as <-. }
  assert (∀ k l, prop_groups !! k = Some l → known_key k) as Hp.
  { unfold collect_proportional_fonts in Hprop.
    apply bind_Ok in Hprop as (g75 & H75 & H100).
    assert (∀ k l, g75 !! k = Some l → known_key k).
    { destruct dir75 as [files|].
      - eapply collect_proportional_dir_known; [|exact H75]. exact Hempty.
      - by injection H75 as <-. }
    destruct dir100 as [files|].
    - eapply collect_proportional_dir_known; [|exact H100]. done.
    - by injection H100 as <-. }
  destruct (misc_groups !! key) as [l|] eqn:E.
  - intros _. by apply (Hm key l).
  - apply Hp.
Qed.

Lemma ttf_name_of_inj (k1 k2 : string * string) :
  known_key k1 → known_key k2 → ttf_name_of k1 = ttf_name_of k2 → k1 = k2.
Proof.
  assert (Forall (λ k1, Forall (λ k2, ttf_name_of k1 = ttf_name_of k2 → k1 = k2)
                          (cprod FAMILIES STYLES)) (cprod FAMILIES STYLES)) as Hall.
  { apply (bool_decide_unpack _). by vm_compute. }
  intros [Hf1 Hs1] [Hf2 Hs2]. rewrite Forall_forall in Hall.
  assert (∀ k : string * string, k.1 ∈ FAMILIES → k.2 ∈ STYLES →
            k ∈ cprod FAMILIES STYLES) as Hin.
  { intros [a b] ??. by apply list_elem_of_cprod. }
  specialize (Hall k1 (Hin _ Hf1 Hs1)). rewrite Forall_forall in Hall.
  apply Hall. by apply Hin.
Qed.

Lemma NoDup_omap_names {A} (f : (string * string) * A → option string)
    (l : list ((string * string) * A)) :
  NoDup l.*1 →
  (∀ item n, item ∈ l → f item = Some n → n = ttf_name_of item.1) →
  (∀ item, item ∈ l → known_key item.1) →
  NoDup (omap f l).
Proof.
  induction l as [|item l IH]; simpl; intros Hnd Hname Hknown; [constructor|].
  apply NoDup_cons in Hnd as [Hitem Hnd].
  assert (NoDup (omap f l)) as IH'.
  { apply IH; [done|..]; intros; [eapply Hname|eapply Hknown]; eauto;
      by apply list_elem_of_further. }
  destruct (f item) as [n|] eqn:Hf; [|done].
  constructor; [|done]. intros Hin.
  apply list_elem_of_omap in Hin as (item' & Hin' & Hf').
  assert (item'.1 = item.1) as Heq.
  { apply ttf_name_of_inj.
    - apply Hknown. by apply list_elem_of_further.
    - apply Hknown. apply list_elem_of_here.
    - rewrite <-(Hname item' n), <-(Hname item n); try done.
      + apply list_elem_of_here.
      + by apply list_elem_of_further. }
  apply Hitem. rewrite <-Heq. by apply list_elem_of_fmap_2.
Qed.

(** X18.  No two groups of a run are written to the same file: the names
    in the result list of [main] are pairwise different. *)
Theorem run_writes_distinct_files
    (extract_bdf_metadata : string → result metadata)
    (host_trace : list entry → Z → result (list Z))
    (host_generate : string → font → result ())
    (tmp : string) (dir75 dir100 dir_misc : font_dir)
    (results : list string) (out : list event) :
  main extract_bdf_metadata host_trace host_generate tmp dir75 dir100 dir_misc
    = Ok (results, out) →
  NoDup results.
Proof.
  unfold main. intros (prop_groups & Hprop & H)%bind_Ok.
  apply bind_Ok in H as (misc_groups & Hmisc & H).
  rewrite build_all_flat in H. injection H as <- _. simpl.
  apply NoDup_omap_names.
  - unfold sorted_items. rewrite stable_sort_perm. apply NoDup_fst_map_to_list.
  - intros [[family style] entries] n _. unfold built_name. simpl.
    destruct (build_font _ _ _ family style entries) as [[[ttf_name f]|]|e] eqn:Hb;
      [|done..].
    intros [= <-].
    apply build_font_Some in Hb
      as (_ & _ & _ & _ & _ & _ & _ & _ & _ & _ & _ & _ & _ & Hname).
    exact Hname.
  - intros [key entries] Hin. simpl. unfold sorted_items in Hin.
    rewrite elem_of_stable_sort, elem_of_map_to_list in Hin.
    by eapply collected_keys_known.
Qed.

Lemma run_writes_distinct_files_demo :
  NoDup [ "X11Helv-Regular.ttf"; "X11Misc6x-Bold.ttf"; "X11Misc6x-Regular.ttf" ].
Proof.
  refine (run_writes_distinct_files demo_metadata demo_trace demo_generate "/tmp/x"
    (Some [ PcfFile "helvB12.pcf.gz" (Some "PIXEL_SIZE 12");
            PcfFile "helvR10.pcf.gz" (Some "PIXEL_SIZE 10") ])
    (Some [ PcfFile "helvB12.pcf.gz" (Some "PIXEL_SIZE 17") ])
    (Some demo_misc) _
    [ GroupHeader "X11Helv" "Bold" 2 [12; 17];
      Error (HostError "trace failed");
      GroupHeader "X11Helv" "Regular" 1 [10];
      Built "X11Helv-Regular.ttf";
      GroupHeader "X11Misc6x" "Bold" 1 [13];
      Built "X11Misc6x-Bold.ttf";
      GroupHeader "X11Misc6x" "Regular" 1 [13];
      Built "X11Misc6x-Regular.ttf" ] _).
  vm_refl.
Defined.

(** ** The temporary file of a conversion *)

Lemma contains_cons (sub : string) (c : ascii) (s : string) :
  PyStr.contains sub (String c s) =
    PyStr.startswith (String c s) sub || PyStr.contains sub s.
Proof. reflexivity. Qed.

Lemma contains_append_r (sub s t : string) :
  PyStr.contains sub t = true → PyStr.contains sub (String.append s t) = true.
Proof.
  intros Ht. induction s as [|c s IH]; [done|].
  rewrite append_cons, contains_cons, IH. apply orb_true_r.
Qed.

Lemma append_same_length (a b x y : string) :
  String.length a = String.length b →
  String.append a x = String.append b y → a = b.
Proof.
  revert b. induction a as [|c a IH]; intros [|d b]; simpl; try done.
  rewrite !append_cons. intros [= Hlen] [= -> Heq]. f_equal. by apply IH.
Qed.

Lemma replace_changes (old new s : string) :
  String.length old = String.length new → old ≠ new →
  PyStr.contains old s = true → PyStr.replace s old new ≠ s.
Proof.
  intros Hlen Hne. unfold PyStr.replace. induction s as [|c s IH].
  - destruct old; [|done]. destruct new; done.
  - rewrite contains_cons. simpl.
    destruct (PyStr.startswith (String c s) old) eqn:Hsw.
    + intros _ Heq. apply startswith_app in Hsw as [t Ht].
      rewrite Ht in Heq. apply append_same_length in Heq; [|done].
      by destruct Hne.
    + simpl. intros Hc [= Heq]. by apply IH.
Qed.

(** X19.  The temporary PCF file that a conversion writes and removes is
    never the BDF file that the conversion leaves behind, for the BDF
    paths of both collectors. *)
Theorem pcf_tmp_is_not_the_bdf (tmp dpi basename : string) :
  pcf_tmp_of (proportional_bdf_path tmp dpi basename)
    ≠ proportional_bdf_path tmp dpi basename
  ∧ pcf_tmp_of (misc_bdf_path tmp basename) ≠ misc_bdf_path tmp basename.
Proof.
  split; apply replace_changes; try done;
    unfold proportional_bdf_path, misc_bdf_path, path_join;
    repeat (apply contains_append_r); reflexivity.
Qed.

(** ** Failure of a run *)


Example run_completes_iff_headers_readable_example :
  main demo_metadata demo_trace demo_generate "/tmp/x"
    (Some [ PcfFile "courR12.pcf.gz" None ]) None
    (Some [ PcfFile "cursor.pcf.gz" (Some "PIXEL_SIZE x") ])
  = Ok ([], []).
Proof. vm_refl. Qed.

(** ** Repeated pixel sizes *)

Lemma strictly_sorted_entries_unique (l1 l2 : list entry) :
  StronglySorted (λ a b : entry, a.1 < b.1) l1 →
  StronglySorted (λ a b : entry, a.1 < b.1) l2 →
  (∀ e, e ∈ l1 ↔ e ∈ l2) → l1 = l2.
Proof.
  intros Hs1 Hs2 Helem.
  assert (∀ l : list entry, StronglySorted (λ a b : entry, a.1 < b.1) l → NoDup l)
    as Hnd.
  { induction 1 as [|x t Hs IH Hx]; constructor; [|done].
    intros Hin. rewrite Forall_forall in Hx. specialize (Hx x Hin). lia. }
  apply (StronglySorted_unique_strong (λ a b : entry, a.1 < b.1)); [|done..|].
  - intros; lia.
  - apply NoDup_Permutation; auto.
Qed.

(** X21.  An entry whose pixel size an earlier entry of the list has
    already is discarded: the build group is the one obtained without
    it. *)
Theorem later_duplicate_discarded (before after : list entry) (e first : entry) :
  first ∈ before → first.1 = e.1 →
  sort_dedup (before ++ e :: after) = sort_dedup (before ++ after).
Proof.
  intros Hin Hpx.
  apply strictly_sorted_entries_unique; [apply sort_dedup_strict..|].
  intros x. rewrite !sort_dedup_elem.
  destruct (decide (x.1 = e.1)) as [Hx|Hx].
  - assert (first.1 = x.1) as Hfx by congruence.
    rewrite !(head_filter_app_l _ _ _ first) by done.
    split; intros [_ Hh]; (split; [|done]);
      apply head_Some_elem_of, list_elem_of_filter in Hh as [_ Hh];
      apply elem_of_app; by left.
  - assert (filter (λ y : entry, y.1 = x.1) (before ++ e :: after)
            = filter (λ y : entry, y.1 = x.1) (before ++ after)) as ->.
    { rewrite !filter_app, filter_cons. by rewrite decide_False by congruence. }
    rewrite !elem_of_app, elem_of_cons.
    split; intros [Hx' Hh]; (split; [|done]).
    + destruct Hx' as [?|[->|?]]; [by left|done|by right].
    + destruct Hx' as [?|?]; [by left|by right; right].
Qed.

Lemma later_duplicate_discarded_demo :
  sort_dedup ([(10, "/tmp/x/helvR10_75dpi.bdf")]
                ++ (10, "/tmp/x/helvR12_75dpi.bdf")
                   :: [(14, "/tmp/x/helvR10_100dpi.bdf")]) =
  sort_dedup ([(10, "/tmp/x/helvR10_75dpi.bdf")]
                ++ [(14, "/tmp/x/helvR10_100dpi.bdf")]).
Proof.
  refine (later_duplicate_discarded [(10, "/tmp/x/helvR10_75dpi.bdf")]
            [(14, "/tmp/x/helvR10_100dpi.bdf")]
            (10, "/tmp/x/helvR12_75dpi.bdf") (10, "/tmp/x/helvR10_75dpi.bdf")
            _ eq_refl).
  apply (bool_decide_unpack _). by vm_compute.
Defined.

(** ** The groups of the misc collector *)

(** X22.  What a group of the misc collector holds: one entry for every
    file whose basename is filed under the key of the group, with the
    pixel size of its header when that is positive and the size of the
    table otherwise, and nothing else. *)
Theorem misc_group_members (tmp : string) (files : list pcf_file)
    (g : groups) (key : string * string) (e : entry) :
  collect_misc_dir tmp files ∅ = Ok g →
  e ∈ group_entries g key ↔
  ∃ f table_px actual_px,
    f ∈ files
    ∧ misc_key f = Some (key.1, key.2, table_px)
    ∧ get_pixel_size (bdf_text f) = Ok actual_px
    ∧ e.1 = (if 0 <? actual_px then actual_px else table_px)
    ∧ e.2 = misc_bdf_path tmp (basename_of f).
Proof.
  revert g. induction files as [|f files IH] using rev_ind; intros g.
  - intros [= <-]. rewrite group_entries_empty. split.
    + by intros ?%elem_of_nil.
    + by intros (f & ? & ? & ?%elem_of_nil & _).
  - rewrite collect_misc_dir_app.
    intros (g1 & Hg1 & Hstep)%bind_Ok. specialize (IH g1 Hg1).
    rewrite collect_misc_dir_step in Hstep.
    destruct (misc_key f) as [[[family style] px0]|] eqn:Hkey.
    + destruct (get_pixel_size (bdf_text f)) as [px|err] eqn:Hpx; [|done].
      rewrite bind_Ok_l in Hstep. injection Hstep as <-.
      rewrite group_entries_append, elem_of_app, IH. split.
      * intros [(f0 & tpx & apx & Hin & ?)|Hnew].
        -- exists f0, tpx, apx. split; [apply elem_of_app; by left|done].
        -- case_decide as Hk; [|by apply elem_of_nil in Hnew].
           apply list_elem_of_singleton in Hnew as ->. subst key.
           exists f, px0, px. split_and!; try done.
           apply elem_of_app. right. apply list_elem_of_here.
      * intros (f0 & tpx & apx
                & [Hin|Hin%list_elem_of_singleton]%elem_of_app & Hk & Hpx0 & He1 & He2).
        -- left. by exists f0, tpx, apx.
        -- subst f0. right. rewrite Hkey in Hk. injection Hk as -> -> ->.
           rewrite Hpx in Hpx0. injection Hpx0 as ->.
           rewrite decide_True by (by destruct key).
           destruct e as [e1 e2]. simpl in *. subst. apply list_elem_of_here.
    + injection Hstep as <-. rewrite IH. split.
      * intros (f0 & tpx & apx & Hin & ?). exists f0, tpx, apx.
        split; [apply elem_of_app; by left|done].
      * intros (f0 & tpx & apx
                & [Hin|Hin%list_elem_of_singleton]%elem_of_app & Hk & ?).
        -- by exists f0, tpx, apx.
        -- subst f0. congruence.
Qed.

Lemma misc_group_members_demo :
  collect_misc_dir "/tmp/x" demo_misc ∅ = Ok demo_misc_groups
  ∧ ((13, "/tmp/x/misc_6x13B.bdf")
       ∈ group_entries demo_misc_groups ("X11Misc6x", "Bold")
     ↔ ∃ f table_px actual_px,
         f ∈ demo_misc
         ∧ misc_key f = Some ("X11Misc6x", "Bold", table_px)
         ∧ get_pixel_size (bdf_text f) = Ok actual_px
         ∧ 13 = (if 0 <? actual_px then actual_px else table_px)
         ∧ "/tmp/x/misc_6x13B.bdf" = misc_bdf_path "/tmp/x" (basename_of f)).
Proof.
  assert (collect_misc_dir "/tmp/x" demo_misc ∅ = Ok demo_misc_groups) as Hg
    by vm_refl.
  split; [exact Hg|].
  exact (misc_group_members "/tmp/x" demo_misc demo_misc_groups
           ("X11Misc6x", "Bold") (13, "/tmp/x/misc_6x13B.bdf") Hg).
Defined.

(** ** Basenames *)

Lemma replace_from_cons_other (old new : string) (c : ascii) (s : string) :
  PyStr.startswith (String c s) old = false →
  PyStr.replace_from old new 0 (String c s)
  = String c (PyStr.replace_from old new 0 s).
Proof. simpl. by intros ->. Qed.

Lemma startswith_cons (c d : ascii) (s p : string) :
  PyStr.startswith (String d s) (String c p) =
    if Ascii.eqb c d then PyStr.startswith s p else false.
Proof. reflexivity. Qed.

(** X23.  The basename of a file named [b.pcf.gz] is [b], for every [b]
    without a dot. *)
Theorem basename_of_pcf_name (b : string) (bdf : option string) :
  PyStr.contains "." b = false →
  basename_of (PcfFile (String.append b ".pcf.gz") bdf) = b.
Proof.
  unfold basename_of, PyStr.replace. simpl pcf_name.
  induction b as [|c b IH]; [reflexivity|].
  rewrite contains_cons. intros [Hc Hb]%orb_false_elim.
  assert (Ascii.eqb "." c = false) as Hne.
  { rewrite startswith_cons in Hc. by destruct (Ascii.eqb "." c). }
  rewrite append_cons, replace_from_cons_other.
  - f_equal. by apply IH.
  - by rewrite startswith_cons, Hne.
Qed.

Lemma basename_of_pcf_name_demo :
  PyStr.contains "." "helvR12-ISO8859-1" = false
  ∧ basename_of (PcfFile (String.append "helvR12-ISO8859-1" ".pcf.gz") None)
    = "helvR12-ISO8859-1".
Proof.
  assert (PyStr.contains "." "helvR12-ISO8859-1" = false) as Hdot by vm_refl.
  split; [exact Hdot|].
  exact (basename_of_pcf_name "helvR12-ISO8859-1" None Hdot).
Defined.
